(** * postgres-mcp-go: the query guardrail of [internal/postgresmcp/query_tool.go]

    A shallow embedding of the statement classifier ([firstKeyword],
    [isSingleStatement]), the read-only policy ([isReadOnlyStatement]), the
    row-limit arithmetic and row loop of [queryHandler.call], the two value
    normalizers ([normalizeArgument], [normalizeValue]) and the constructor
    [NewServer], followed by the properties the specification states about
    them.

    Go strings are byte sequences: they are [String.string] here, one [ascii]
    per byte.  Go's [int], [int64] and [rune] are [Z]. *)

From Stdlib Require Import ZArith List String Ascii Lia Bool.
From Stdlib Require Import Floats.SpecFloat DecimalString.
From stdpp Require Import base option list gmap strings.

Open Scope string_scope.
Open Scope Z_scope.

(** ** Bytes and slices of Go strings *)

Definition byteval (c : ascii) : Z := Z.of_nat (nat_of_ascii c).

(** [len(s)] *)
Definition len (s : string) : Z := Z.of_nat (String.length s).

(** [s[i:]]; Go panics when [i] is outside [0 .. len(s)], which the callers
    below never produce (see [IndexByte_bounds], [Index_bounds]). *)
Fixpoint drop_bytes (n : nat) (s : string) : string :=
  match n, s with
  | O, _ => s
  | S _, EmptyString => EmptyString
  | S k, String _ r => drop_bytes k r
  end.

Fixpoint take_bytes (n : nat) (s : string) : string :=
  match n, s with
  | O, _ => EmptyString
  | S _, EmptyString => EmptyString
  | S k, String c r => String c (take_bytes k r)
  end.

Definition slice_from (s : string) (i : Z) : string := drop_bytes (Z.to_nat i) s.
Definition slice_to (s : string) (i : Z) : string := take_bytes (Z.to_nat i) s.

(** ** Package [unicode/utf8] *)
Module utf8.

Definition RuneError : Z := 0xFFFD.
Definition RuneSelf : Z := 0x80.
Definition MaxRune : Z := 0x10FFFF.

Definition between (lo x hi : Z) : bool := (lo <=? x) && (x <=? hi).
Definition cont (b : Z) : bool := between 0x80 b 0xBF.

(** The range the second byte must lie in, by first byte (Go's
    [acceptRanges]). *)
Definition accept (b0 : Z) : Z * Z :=
  if b0 =? 0xE0 then (0xA0, 0xBF)
  else if b0 =? 0xED then (0x80, 0x9F)
  else if b0 =? 0xF0 then (0x90, 0xBF)
  else if b0 =? 0xF4 then (0x80, 0x8F)
  else (0x80, 0xBF).

(** [utf8.DecodeRuneInString]: the first rune of [s] and its width in bytes;
    [(RuneError, 1)] on an invalid or truncated encoding, [(RuneError, 0)] on
    the empty string. *)
Definition DecodeRuneInString (s : string) : Z * nat :=
  match s with
  | EmptyString => (RuneError, 0%nat)
  | String c0 r =>
    let b0 := byteval c0 in
    let '(lo, hi) := accept b0 in
    if b0 <? RuneSelf then (b0, 1%nat)
    else if between 0xC2 b0 0xDF then
      match r with
      | String c1 _ =>
        let b1 := byteval c1 in
        if between lo b1 hi
        then (Z.lor (Z.shiftl (Z.land b0 0x1F) 6) (Z.land b1 0x3F), 2%nat)
        else (RuneError, 1%nat)
      | _ => (RuneError, 1%nat)
      end
    else if between 0xE0 b0 0xEF then
      match r with
      | String c1 (String c2 _) =>
        let b1 := byteval c1 in
        let b2 := byteval c2 in
        if between lo b1 hi && cont b2
        then (Z.lor (Z.shiftl (Z.land b0 0x0F) 12)
                (Z.lor (Z.shiftl (Z.land b1 0x3F) 6) (Z.land b2 0x3F)), 3%nat)
        else (RuneError, 1%nat)
      | _ => (RuneError, 1%nat)
      end
    else if between 0xF0 b0 0xF4 then
      match r with
      | String c1 (String c2 (String c3 _)) =>
        let b1 := byteval c1 in
        let b2 := byteval c2 in
        let b3 := byteval c3 in
        if between lo b1 hi && cont b2 && cont b3
        then (Z.lor (Z.shiftl (Z.land b0 0x07) 18)
                (Z.lor (Z.shiftl (Z.land b1 0x3F) 12)
                   (Z.lor (Z.shiftl (Z.land b2 0x3F) 6) (Z.land b3 0x3F))), 4%nat)
        else (RuneError, 1%nat)
      | _ => (RuneError, 1%nat)
      end
    else (RuneError, 1%nat)
  end.

Definition byte_of (z : Z) : ascii := ascii_of_nat (Z.to_nat z).

Definition encode3 (r : Z) : string :=
  String (byte_of (Z.lor 0xE0 (Z.shiftr r 12)))
    (String (byte_of (Z.lor 0x80 (Z.land (Z.shiftr r 6) 0x3F)))
       (String (byte_of (Z.lor 0x80 (Z.land r 0x3F))) EmptyString)).

(** [utf8.AppendRune(nil, r)]: the UTF-8 encoding of [r]; a surrogate or a
    value outside [0 .. MaxRune] is written as [RuneError]. *)
Definition EncodeRune (r : Z) : string :=
  if between 0 r 0x7F then String (byte_of r) EmptyString
  else if between 0x80 r 0x7FF then
    String (byte_of (Z.lor 0xC0 (Z.shiftr r 6)))
      (String (byte_of (Z.lor 0x80 (Z.land r 0x3F))) EmptyString)
  else if (r <? 0) || (MaxRune <? r) || between 0xD800 r 0xDFFF then encode3 RuneError
  else if r <=? 0xFFFF then encode3 r
  else
    String (byte_of (Z.lor 0xF0 (Z.shiftr r 18)))
      (String (byte_of (Z.lor 0x80 (Z.land (Z.shiftr r 12) 0x3F)))
         (String (byte_of (Z.lor 0x80 (Z.land (Z.shiftr r 6) 0x3F)))
            (String (byte_of (Z.lor 0x80 (Z.land r 0x3F))) EmptyString))).

(** What [for _, r := range s] visits: each rune of [s] in order, paired with
    the bytes it was decoded from.  [skip] counts the bytes of [s] that belong
    to the rune decoded last. *)
Fixpoint rangeFrom (skip : nat) (s : string) : list (Z * string) :=
  match s with
  | EmptyString => []
  | String _ rest =>
    match skip with
    | S k => rangeFrom k rest
    | O =>
      let '(r, size) := DecodeRuneInString s in
      (r, take_bytes size s) :: rangeFrom (Nat.pred size) rest
    end
  end.

Definition range (s : string) : list (Z * string) := rangeFrom 0 s.

End utf8.

(** ** Package [unicode] *)
Module unicode.

Import utf8.

Definition MaxLatin1 : Z := 0xFF.
Definition MaxASCII : Z := 0x7F.

(** The range tables of Go's [unicode] package beyond Latin-1: the [Letter]
    table consulted by [IsLetter] and the [CaseRanges] mapping to upper case
    consulted by [ToUpper].  They are data of the Go distribution, taken as
    parameters; every result below holds for any tables. *)
Record Tables := {
  Letter : Z -> bool;
  UpperCase : Z -> Z
}.

(** [unicode.IsSpace]: the Latin-1 cases, then the [White_Space] table. *)
Definition IsSpace (r : Z) : bool :=
  if between 0 r MaxLatin1 then
    between 0x09 r 0x0D || (r =? 0x20) || (r =? 0x85) || (r =? 0xA0)
  else
    (r =? 0x1680) || between 0x2000 r 0x200A || between 0x2028 r 0x2029
    || (r =? 0x202F) || (r =? 0x205F) || (r =? 0x3000).

(** The letters of Latin-1 (the [pLmask] entries of [properties]). *)
Definition latin1Letter (r : Z) : bool :=
  between 0x41 r 0x5A || between 0x61 r 0x7A
  || (r =? 0xAA) || (r =? 0xB5) || (r =? 0xBA)
  || between 0xC0 r 0xD6 || between 0xD8 r 0xF6 || between 0xF8 r 0xFF.

(** [unicode.IsLetter] *)
Definition IsLetter (T : Tables) (r : Z) : bool :=
  if between 0 r MaxLatin1 then latin1Letter r else Letter T r.

(** [unicode.ToUpper] *)
Definition ToUpper (T : Tables) (r : Z) : Z :=
  if r <=? MaxASCII then
    if between 0x61 r 0x7A then r - 0x20 else r
  else UpperCase T r.

End unicode.

(** ** Package [strings] *)
Module strings.

Import utf8.

(** [strings.HasPrefix(s, prefix)] *)
Definition HasPrefix (s prefix : string) : bool := String.prefix prefix s.

(** [strings.Index(s, substr)]: the byte index of the first occurrence, [-1]
    when there is none. *)
Fixpoint Index (s substr : string) : Z :=
  if String.prefix substr s then 0
  else match s with
       | EmptyString => -1
       | String _ r => let i := Index r substr in if i <? 0 then -1 else i + 1
       end.

(** [strings.IndexByte(s, c)] *)
Fixpoint IndexByte (s : string) (c : ascii) : Z :=
  match s with
  | EmptyString => -1
  | String b r =>
    if Ascii.eqb b c then 0
    else let i := IndexByte r c in if i <? 0 then -1 else i + 1
  end.

(** [strings.LastIndex(s, substr)] *)
Fixpoint LastIndex (s substr : string) : Z :=
  match s with
  | EmptyString => if String.prefix substr EmptyString then 0 else -1
  | String _ r =>
    let i := LastIndex r substr in
    if 0 <=? i then i + 1
    else if String.prefix substr s then 0 else -1
  end.

(** Non-overlapping occurrences of a non-empty [substr]; [skip] counts the
    bytes still covered by the occurrence found last. *)
Fixpoint countFrom (skip : nat) (s substr : string) : Z :=
  match s with
  | EmptyString => 0
  | String _ r =>
    match skip with
    | S k => countFrom k r substr
    | O =>
      if String.prefix substr s
      then 1 + countFrom (Nat.pred (String.length substr)) r substr
      else countFrom 0 r substr
    end
  end.

(** [strings.Count(s, substr)]; for the empty [substr] Go returns the number
    of runes plus one. *)
Definition Count (s substr : string) : Z :=
  match substr with
  | EmptyString => Z.of_nat (List.length (range s)) + 1
  | _ => countFrom 0 s substr
  end.

Definition isSpaceRune (x : Z * string) : bool := unicode.IsSpace (fst x).

Fixpoint dropWhile {A} (f : A -> bool) (l : list A) : list A :=
  match l with
  | [] => []
  | x :: l' => if f x then dropWhile f l' else l
  end.

Fixpoint joinBytes (l : list (Z * string)) : string :=
  match l with
  | [] => EmptyString
  | x :: l' => snd x +:+ joinBytes l'
  end.

(** [strings.TrimSpace(s)]: [s] without its leading and trailing runes that
    [unicode.IsSpace] holds of. *)
Definition TrimSpace (s : string) : string :=
  joinBytes (rev (dropWhile isSpaceRune (rev (dropWhile isSpaceRune (range s))))).

End strings.

Import utf8 unicode strings.

(** ** The statement classifier and the read-only policy *)

(** The errors [call] creates itself, by message; an error of the pool is
    passed on as the message it carries. *)
Definition error : Type := string.

Definition EmptyStatement : error := "sql must not be empty".
Definition MultiStatementRejected : error :=
  "only a single SQL statement is supported per call".
Definition MutatingStatementRejected : error :=
  "mutating statements are disabled in read-only mode".
Definition InvalidLimit : error := "maxRows must be positive".

(** [isSingleStatement] *)
Definition isSingleStatement (sql : string) : bool :=
  let t := TrimSpace sql in
  if String.eqb t "" then false
  else
    let semi := Count t ";" in
    if semi =? 0 then true
    else if semi >? 1 then false
    else
      let idx := LastIndex t ";" in
      if idx =? len t - 1
      then negb (String.eqb (TrimSpace (slice_to t idx)) "")
      else false.

Section Classifier.

Variable T : Tables.

(** The comment-skipping loop of [firstKeyword].  [None] is the early
    [return ""] on an unterminated comment, [Some s] the value of [s] when
    the loop is left.  Every turn shortens [s], so [String.length s] turns
    are enough ([skipLeading_fuel]). *)
Fixpoint skipLeading (fuel : nat) (s : string) : option string :=
  if HasPrefix s "--" then
    let newline := IndexByte s "010"%char in
    if newline <? 0 then None
    else
      match fuel with
      | O => None
      | S n => skipLeading n (TrimSpace (slice_from s (newline + 1)))
      end
  else if HasPrefix s "/*" then
    let end_ := Index s "*/" in
    if end_ <? 0 then None
    else
      match fuel with
      | O => None
      | S n => skipLeading n (TrimSpace (slice_from s (end_ + 2)))
      end
  else Some s.

(** The token loop of [firstKeyword] over the runes of [s]; [builder] is the
    content of the [strings.Builder]. *)
Fixpoint scanToken (rs : list (Z * string)) (builder : string) : string :=
  match rs with
  | [] => builder
  | (r, _) :: rs' =>
    if IsLetter T r || (r =? 0x5F) then
      scanToken rs' (builder +:+ EncodeRune (ToUpper T r))
    else if (len builder =? 0) && IsSpace r then scanToken rs' builder
    else builder
  end.

(** [firstKeyword] *)
Definition firstKeyword (sql : string) : string :=
  let s := TrimSpace sql in
  match skipLeading (String.length s) s with
  | None => ""
  | Some s =>
    if String.eqb s "" then "" else scanToken (range s) ""
  end.

(** [allowedReadOnly] *)
Definition allowedReadOnly : gmap string unit :=
  <["SELECT" := tt]> (<["WITH" := tt]> (<["SHOW" := tt]>
    (<["EXPLAIN" := tt]> (<["VALUES" := tt]> (<["TABLE" := tt]> ∅))))).

(** [isReadOnlyStatement] *)
Definition isReadOnlyStatement (sql : string) : bool :=
  let kw := firstKeyword sql in
  if String.eqb kw "" then false
  else
    match allowedReadOnly !! kw with
    | Some _ => true
    | None => false
    end.

(** The three checks at the head of [call], on the trimmed text: the error
    returned, or [None] when the statement goes on to execution. *)
Definition guard (readOnly : bool) (sqlText : string) : option error :=
  if String.eqb sqlText "" then Some EmptyStatement
  else if negb (isSingleStatement sqlText) then Some MultiStatementRejected
  else if readOnly && negb (isReadOnlyStatement sqlText)
  then Some MutatingStatementRejected
  else None.

End Classifier.

(** ** Machine integers *)

Definition minInt64 : Z := - 2 ^ 63.
Definition maxInt64 : Z := 2 ^ 63 - 1.

(** The value an [int64] holds after an operation whose exact result is [z]. *)
Definition wrap64 (z : Z) : Z := (z + 2 ^ 63) mod 2 ^ 64 - 2 ^ 63.

(** ** [float64] and package [math] *)
Module math.

(** A [float64] is an IEEE 754 binary64 datum: [spec_float] at precision 53
    and exponent bound 1024. *)
Definition float64 : Type := spec_float.
Definition valid (x : float64) : bool := valid_binary 53 1024 x.

(** The float nearest to the integer or dyadic literal [m * 2^e]. *)
Definition lit (m e : Z) : float64 := binary_normalize 53 1024 m e false.

(** [math.Trunc(x)]: the integer part of [x]; zeros, infinities and NaN are
    returned as they are.  The result is a float datum denoting that integer
    (not brought to canonical form: it is only ever compared). *)
Definition Trunc (x : float64) : float64 :=
  match x with
  | S754_finite s m e =>
    if 0 <=? e then x
    else
      match Z.shiftr (Zpos m) (- e) with
      | Zpos q => S754_finite s q 0
      | _ => S754_zero s
      end
  | _ => x
  end.

(** [x == y] on [float64]: equality of the denoted numbers; a NaN equals
    nothing, the two zeros are equal. *)
Definition eq (x y : float64) : bool :=
  match x, y with
  | S754_nan, _ | _, S754_nan => false
  | S754_zero _, S754_zero _ => true
  | S754_infinity s1, S754_infinity s2 => Bool.eqb s1 s2
  | S754_finite s1 m1 e1, S754_finite s2 m2 e2 =>
    let e := Z.min e1 e2 in
    Bool.eqb s1 s2 && (Zpos m1 * 2 ^ (e1 - e) =? Zpos m2 * 2 ^ (e2 - e))
  | _, _ => false
  end.

(** The integer part of a finite [x], rounded toward zero. *)
Definition intPart (x : float64) : option Z :=
  match x with
  | S754_zero _ => Some 0
  | S754_finite s m e =>
    Some (cond_Zopp s (if 0 <=? e then Zpos m * 2 ^ e else Z.shiftr (Zpos m) (- e)))
  | _ => None
  end.

(** The conversion [int64(x)].  When the integer part of [x] is not an
    [int64] (or [x] is an infinity or a NaN) the conversion succeeds with an
    implementation-dependent [int64]; [unrepresentable] chooses it. *)
Definition toInt64 (unrepresentable : float64 -> Z) (x : float64) : Z :=
  match intPart x with
  | Some z =>
    if (minInt64 <=? z) && (z <=? maxInt64) then z
    else wrap64 (unrepresentable x)
  | None => wrap64 (unrepresentable x)
  end.

End math.

(** ** Package [time] *)
Module time.

(** A [time.Time]: an instant ([sec] seconds and [nsec] nanoseconds after
    1970-01-01T00:00:00Z) together with the offset east of UTC, in seconds,
    of the location it is to be displayed in. *)
Record Time := { sec : Z; nsec : Z; offset : Z }.

(** [t.UTC()] *)
Definition UTC (t : Time) : Time := {| sec := sec t; nsec := nsec t; offset := 0 |}.

Definition digits (n : Z) : string := NilZero.string_of_uint (N.to_uint (Z.to_N n)).

Fixpoint zeros (n : nat) : string :=
  match n with O => "" | S k => String "0"%char (zeros k) end.

(** [n] in decimal, padded with zeros to [width] digits, with a sign when
    negative (Go's [appendInt]). *)
Definition appendInt (n : Z) (width : nat) : string :=
  let d := digits (Z.abs n) in
  (if n <? 0 then "-" else "") +:+ zeros (width - String.length d) +:+ d.

(** Year, month and day of the day [z] days after 1970-01-01, in the
    proleptic Gregorian calendar. *)
Definition civil (z : Z) : Z * Z * Z :=
  let z := z + 719468 in
  let era := z / 146097 in
  let doe := z - era * 146097 in
  let yoe := (doe - doe / 1460 + doe / 36524 - doe / 146096) / 365 in
  let doy := doe - (365 * yoe + yoe / 4 - yoe / 100) in
  let mp := (5 * doy + 2) / 153 in
  let d := doy - (153 * mp + 2) / 5 + 1 in
  let m := if mp <? 10 then mp + 3 else mp - 9 in
  let y := yoe + era * 400 + (if m <=? 2 then 1 else 0) in
  (y, m, d).

Fixpoint stripZeros (rev_digits : list ascii) : list ascii :=
  match rev_digits with
  | c :: r => if Ascii.eqb c "0"%char then stripZeros r else rev_digits
  | [] => []
  end.

(** The layout element [.999999999]: nothing when [ns] is zero, else the
    fraction without its trailing zeros. *)
Definition fraction (ns : Z) : string :=
  if ns =? 0 then ""
  else
    "." +:+ string_of_list_ascii
              (rev (stripZeros (rev (list_ascii_of_string (appendInt ns 9))))).

(** The layout element [Z07:00]. *)
Definition zone (off : Z) : string :=
  if off =? 0 then "Z"
  else
    let m := Z.quot off 60 in
    (if m <? 0 then "-" else "+")
      +:+ appendInt (Z.abs m / 60) 2 +:+ ":" +:+ appendInt (Z.abs m mod 60) 2.

(** [t.Format(time.RFC3339Nano)], the layout
    [2006-01-02T15:04:05.999999999Z07:00]. *)
Definition FormatRFC3339Nano (t : Time) : string :=
  let local := sec t + offset t in
  let '(y, m, d) := civil (local / 86400) in
  let s := local mod 86400 in
  appendInt y 4 +:+ "-" +:+ appendInt m 2 +:+ "-" +:+ appendInt d 2 +:+ "T"
    +:+ appendInt (s / 3600) 2 +:+ ":" +:+ appendInt (s mod 3600 / 60) 2 +:+ ":"
    +:+ appendInt (s mod 60) 2 +:+ fraction (nsec t) +:+ zone (offset t).

End time.

(** ** Package [pgtype] *)
Module pgtype.

(** A [pgtype.Numeric] as [normalizeValue] uses it: the [Valid] flag and the
    text its [String] method returns. *)
Record Numeric := { Valid : bool; String_ : string }.

End pgtype.

(** ** Go values *)

(** The values of type [any] that reach the two normalizers, by dynamic
    type: the types their type switches name, the scalar types JSON decoding
    and the driver produce, and two opaque families ([Stringer]: a value of
    any further type that implements [fmt.Stringer], with the text its
    [String] method returns; [Other]: a value of any further type). *)
#[warnings="-register-all"]
Inductive any :=
| Nil
| Bool (b : bool)
| Str (s : string)
| Int64 (z : Z)
| Float64 (f : math.float64)
| MapAny (m : gmap string any)
| SliceAny (l : list any)
| Bytes (b : string)
| Time (t : time.Time)
| Numeric (n : pgtype.Numeric)
| NumericPtr (p : option pgtype.Numeric)
| Stringer (type : positive) (text : string)
| Other (type : positive) (payload : positive).

Section Normalizers.

Variable unrepresentable : math.float64 -> Z.

(** [normalizeArgument] *)
Fixpoint normalizeArgument (arg : any) : any :=
  match arg with
  | Float64 v =>
    if math.eq (math.Trunc v) v then Int64 (math.toInt64 unrepresentable v)
    else Float64 v
  | MapAny v => MapAny (normalizeArgument <$> v)
  | SliceAny v => SliceAny (normalizeArgument <$> v)
  | _ => arg
  end.

(** [normalizeValue] *)
Definition normalizeValue (v : any) : any :=
  match v with
  | Bytes val => Str val
  | Time val => Str (time.FormatRFC3339Nano (time.UTC val))
  | Numeric val => if negb (pgtype.Valid val) then Nil else Str (pgtype.String_ val)
  | NumericPtr val =>
    match val with
    | None => Nil
    | Some n => if negb (pgtype.Valid n) then Nil else Str (pgtype.String_ n)
    end
  | Stringer _ text => Str text
  | _ => v
  end.

End Normalizers.

(** ** The pool and its result sets *)
Module pgconn.

(** A [pgconn.CommandTag]: its text ([None]: the nil tag) and the count its
    [RowsAffected] method reports. *)
Record CommandTag := { text : option string; RowsAffected : Z }.

End pgconn.

Module pgx.

(** A [pgx.Rows] as [call] observes it.  [stream] has one entry for each row
    [Next] announces, holding what [Values] returns for it; [Err] is what
    [rows.Err()] returns once [Next] has returned false (while [Next] returns
    true and [Values] succeeds, [rows.Err()] is nil). *)
Record Rows := {
  FieldDescriptions : list string;
  stream : list (error + list any);
  Err : option error;
  CommandTag : pgconn.CommandTag
}.

End pgx.

Module pgxpool.

(** [pool.Query(ctx, sql, params...)] *)
Record Pool := { Query : string -> list any -> error + pgx.Rows }.

End pgxpool.

(** ** The handler *)

Record queryHandler := {
  pool : pgxpool.Pool;
  readOnly : bool;
  maxRows : Z;
  requestTimeout : Z
}.

Record queryInput := {
  SQL : string;
  Args : list any;
  MaxRows : Z
}.

(** [queryOutput], without [Elapsed] (a reading of the wall clock) and
    [Meta]. *)
Record queryOutput := {
  Command : string;
  RowCount : Z;
  Columns : list string;
  Rows : list (gmap string any);
  Truncated : bool
}.

(** [commandString] *)
Definition commandString (tag : pgconn.CommandTag) : string :=
  match pgconn.text tag with
  | None => ""
  | Some s => s
  end.

(** The limit computed at the head of [call] from [h.maxRows] and
    [input.MaxRows]. *)
Definition effectiveLimit (h_maxRows input_MaxRows : Z) : error + Z :=
  let limit := h_maxRows in
  if input_MaxRows <? 0 then inl InvalidLimit
  else if (input_MaxRows >? 0) && ((limit =? 0) || (input_MaxRows <? limit))
  then inr input_MaxRows
  else inr limit.

(** The inner loop of [call] over [columns]: [record[col] = val], where
    [val] stays nil when the row has no value at the column's index. *)
Fixpoint fillRecord (columns : list string) (i : nat) (values : list any)
    (record : gmap string any) : gmap string any :=
  match columns with
  | [] => record
  | col :: columns' =>
    let val :=
      match values !! i with
      | Some v => normalizeValue v
      | None => Nil
      end in
    fillRecord columns' (S i) values (<[col := val]> record)
  end.

(** The state of the row loop of [call]. *)
Record loopState := {
  dataRows : list (gmap string any);
  count : Z;
  trunc : bool
}.

(** The loop [for rows.Next() { ... }]: the state when it is left, or the
    error of a failed [rows.Values()]. *)
Fixpoint rowLoop (limit : Z) (columns : list string)
    (stream : list (error + list any)) (st : loopState) : error + loopState :=
  match stream with
  | [] => inr st
  | row :: stream' =>
    if (limit >? 0) && (count st >=? limit)
    then inr {| dataRows := dataRows st; count := count st; trunc := true |}
    else
      match row with
      | inl err => inl err
      | inr values =>
        rowLoop limit columns stream'
          {| dataRows := dataRows st ++ [fillRecord columns 0 values ∅];
             count := wrap64 (count st + 1);
             trunc := trunc st |}
      end
  end.

(** The records of the rows whose values are [taken]. *)
Definition recordsOf (columns : list string) (taken : list (list any)) :
    list (gmap string any) :=
  (fun values => fillRecord columns 0 values ∅) <$> taken.

(** The value [call] records for the column at index [i] of a row. *)
Definition cell (values : list any) (i : nat) : any :=
  match values !! i with
  | Some v => normalizeValue v
  | None => Nil
  end.

(** The index of the last column named [col], when there is one. *)
Fixpoint lastIndexOf (col : string) (columns : list string) : option nat :=
  match columns with
  | [] => None
  | c :: columns' =>
    match lastIndexOf col columns' with
    | Some j => Some (S j)
    | None => if decide (c = col) then Some O else None
    end
  end.

Definition bind {A B} (m : error + A) (k : A -> error + B) : error + B :=
  match m with
  | inl e => inl e
  | inr a => k a
  end.

Notation "'do' x <- m ; k" := (bind m (fun x => k))
  (at level 10, x name, m at level 100, k at level 200).

Definition check (e : option error) : error + unit :=
  match e with
  | Some err => inl err
  | None => inr tt
  end.

Section Handler.

Variable T : Tables.
Variable unrepresentable : math.float64 -> Z.

(** [queryHandler.call].  The context, its timeout and the clock are left
    out: a cancelled or timed-out query is one for which the pool or the
    rows report an error. *)
Definition call (h : queryHandler) (input : queryInput) : error + queryOutput :=
  let sqlText := TrimSpace (SQL input) in
  do _ <- check (guard T (readOnly h) sqlText);
  do limit <- effectiveLimit (maxRows h) (MaxRows input);
  let params := normalizeArgument unrepresentable <$> Args input in
  do rows <- pgxpool.Query (pool h) sqlText params;
  let columns := pgx.FieldDescriptions rows in
  do st <- rowLoop limit columns (pgx.stream rows)
             {| dataRows := []; count := 0; trunc := false |};
  do _ <- check (if trunc st then None else pgx.Err rows);
  let tag := pgx.CommandTag rows in
  let rowCount :=
    if (count st =? 0) && (Z.of_nat (List.length columns) =? 0)
    then pgconn.RowsAffected tag
    else count st in
  inr {| Command := commandString tag;
         RowCount := rowCount;
         Columns := columns;
         Rows := dataRows st;
         Truncated := trunc st |}.

End Handler.

(** ** The constructor *)
Module ServerOptions.

Record t := {
  Pool : option pgxpool.Pool;
  ReadOnly : bool;
  MaxRows : Z;
  RequestTimeout : Z
}.

End ServerOptions.

Definition defaultMaxRows : Z := 200.

(** [NewServer]; the server it returns is represented by the handler it
    registers. *)
Definition NewServer (opts : ServerOptions.t) : error + queryHandler :=
  match ServerOptions.Pool opts with
  | None => inl "postgresmcp: pool must not be nil"
  | Some p =>
    let maxRows := ServerOptions.MaxRows opts in
    let maxRows := if maxRows <=? 0 then defaultMaxRows else maxRows in
    inr {| pool := p;
           readOnly := ServerOptions.ReadOnly opts;
           maxRows := maxRows;
           requestTimeout := ServerOptions.RequestTimeout opts |}
  end.

(** ** The specification's wording, for comparison *)

(** The number of semicolons in a text. *)
Fixpoint semicolons (t : string) : nat :=
  match t with
  | EmptyString => O
  | String c r => if Ascii.eqb c ";"%char then S (semicolons r) else semicolons r
  end.

(** The single-statement rule as the specification words it: the trimmed
    text is not empty and holds no semicolon, or exactly one, at its end,
    with something other than white space before it. *)
Definition singleStatementRule (sql : string) : Prop :=
  let t := TrimSpace sql in
  t <> "" /\
  (semicolons t = O \/
   (semicolons t = 1%nat /\ exists p, t = p +:+ ";" /\ TrimSpace p <> "")).

(** The allow-set of the read-only rule. *)
Definition readOnlyKeywords : list string :=
  ["SELECT"; "WITH"; "SHOW"; "EXPLAIN"; "VALUES"; "TABLE"].

(** The classifier as the specification words it.  After white space, a
    line comment is [--] up to the end of its line and a block comment is
    [/*] up to the [*/] that closes it; a comment that is not closed leaves
    no keyword; the keyword is the identifier token the rest starts with,
    in upper case. *)
Definition afterLineComment (s : string) : option string :=
  let body := slice_from s 2 in
  let newline := IndexByte body "010"%char in
  if newline <? 0 then None else Some (slice_from body (newline + 1)).

Definition afterBlockComment (s : string) : option string :=
  let body := slice_from s 2 in
  let close := Index body "*/" in
  if close <? 0 then None else Some (slice_from body (close + 2)).

Fixpoint skipLeadingSpec (fuel : nat) (s : string) : option string :=
  let s := TrimSpace s in
  if HasPrefix s "--" then
    match afterLineComment s, fuel with
    | Some rest, S n => skipLeadingSpec n rest
    | _, _ => None
    end
  else if HasPrefix s "/*" then
    match afterBlockComment s, fuel with
    | Some rest, S n => skipLeadingSpec n rest
    | _, _ => None
    end
  else Some s.

Definition isIdentRune (T : Tables) (x : Z * string) : bool :=
  IsLetter T (fst x) || (fst x =? 0x5F).

Fixpoint upperToken (T : Tables) (rs : list (Z * string)) : string :=
  match rs with
  | [] => ""
  | x :: rs' =>
    if isIdentRune T x then EncodeRune (ToUpper T (fst x)) +:+ upperToken T rs'
    else ""
  end.

Definition firstKeywordSpec (T : Tables) (sql : string) : string :=
  match skipLeadingSpec (String.length sql) sql with
  | None => ""
  | Some s => upperToken T (dropWhile isSpaceRune (range s))
  end.

(** [h] with its [readOnly] flag set to [b]. *)
Definition withReadOnly (b : bool) (h : queryHandler) : queryHandler :=
  {| pool := pool h; readOnly := b; maxRows := maxRows h;
     requestTimeout := requestTimeout h |}.

(** A float datum denotes the integer [z]. *)
Definition denotes (x : math.float64) (z : Z) : Prop :=
  match x with
  | S754_zero _ => z = 0
  | S754_finite s m e =>
    if 0 <=? e then z = cond_Zopp s (Zpos m * 2 ^ e)
    else Zpos m = Z.abs z * 2 ^ (- e) /\ z = cond_Zopp s (Z.abs z)
  | _ => False
  end.

(** ** Concrete instances *)
Module Demo.

(** Tables with no letter and no case mapping beyond Latin-1. *)
Definition tables : Tables := {| Letter := fun _ => false; UpperCase := fun r => r |}.

(** A platform on which an unrepresentable conversion yields the least
    [int64]. *)
Definition unrepresentable (x : math.float64) : Z := minInt64.

(** A result set of three rows and the columns [a], [b], [a]; the last row
    has no values. *)
Definition threeRows : pgx.Rows :=
  {| pgx.FieldDescriptions := ["a"; "b"; "a"];
     pgx.stream := [inr [Int64 1; Bytes "x"; Int64 3]; inr [Int64 4]; inr []];
     pgx.Err := None;
     pgx.CommandTag := {| pgconn.text := Some "SELECT 3"; pgconn.RowsAffected := 3 |} |}.

(** The answer to an update of five rows. *)
Definition updated : pgx.Rows :=
  {| pgx.FieldDescriptions := [];
     pgx.stream := [];
     pgx.Err := None;
     pgx.CommandTag := {| pgconn.text := Some "UPDATE 5"; pgconn.RowsAffected := 5 |} |}.

Definition database : pgxpool.Pool :=
  {| pgxpool.Query := fun sql _ =>
       if String.prefix "update" sql then inr updated else inr threeRows |}.

Definition opts : ServerOptions.t :=
  {| ServerOptions.Pool := Some database;
     ServerOptions.ReadOnly := false;
     ServerOptions.MaxRows := 0;
     ServerOptions.RequestTimeout := 0 |}.

Definition handler : queryHandler :=
  {| pool := database; readOnly := false; maxRows := 200; requestTimeout := 0 |}.

Definition selectTwo : queryInput :=
  {| SQL := " select a, b, a from t "; Args := []; MaxRows := 2 |}.

Definition update : queryInput :=
  {| SQL := "update t set a = 1"; Args := [Float64 (math.lit 3 0)]; MaxRows := 0 |}.

Definition delete : queryInput :=
  {| SQL := "DELETE FROM t"; Args := []; MaxRows := 0 |}.

Definition result (input : queryInput) : queryOutput :=
  match call tables unrepresentable handler input with
  | inr out => out
  | inl _ =>
    {| Command := ""; RowCount := 0; Columns := []; Rows := []; Truncated := false |}
  end.

Definition firstRecord : gmap string any :=
  fillRecord ["a"; "b"; "a"] 0 [Int64 1; Bytes "x"; Int64 3] ∅.

End Demo.


(** ** Further notions used by the properties *)

(** [h] with another pool. *)
Definition withPool (p : pgxpool.Pool) (h : queryHandler) : queryHandler :=
  {| pool := p; readOnly := readOnly h; maxRows := maxRows h;
     requestTimeout := requestTimeout h |}.

(** The values [normalizeValue] leaves as they are: those of none of the
    types its type switch names. *)
Definition settled (v : any) : Prop :=
  match v with
  | Bytes _ | Time _ | Numeric _ | NumericPtr _ | Stringer _ _ => False
  | _ => True
  end.

(** ** Further concrete instances *)
Module Demo2.

(** A result set whose second row cannot be read. *)
Definition brokenRow : pgx.Rows :=
  {| pgx.FieldDescriptions := ["a"];
     pgx.stream := [inr [Int64 1]; inl "unexpected EOF"; inr [Int64 3]];
     pgx.Err := None;
     pgx.CommandTag := {| pgconn.text := None; pgconn.RowsAffected := 0 |} |}.

Definition broken : pgxpool.Pool :=
  {| pgxpool.Query := fun _ _ => inr brokenRow |}.

Definition brokenHandler : queryHandler :=
  {| pool := broken; readOnly := true; maxRows := 200; requestTimeout := 0 |}.

(** A handler built by hand with a negative limit. *)
Definition uncapped : queryHandler :=
  {| pool := Demo.database; readOnly := false; maxRows := -1; requestTimeout := 0 |}.

Definition selectAll : queryInput :=
  {| SQL := "select a from t"; Args := []; MaxRows := 0 |}.

Definition two : queryInput :=
  {| SQL := "select 1; select 2"; Args := []; MaxRows := 0 |}.

Definition uncappedResult : queryOutput :=
  match call Demo.tables Demo.unrepresentable uncapped Demo.selectTwo with
  | inr out => out
  | inl _ =>
    {| Command := ""; RowCount := 0; Columns := []; Rows := []; Truncated := false |}
  end.

End Demo2.

(** ** Lower case: [unicode.ToLower], [strings.Map], [strings.ToLower] *)

(** [unicode.ToLower]; [LowerCase] is the mapping to lower case of Go's
    [CaseRanges] table beyond ASCII, a parameter like [Tables]. *)
Definition unicodeToLower (LowerCase : Z -> Z) (r : Z) : Z :=
  if r <=? MaxASCII then
    if between 0x41 r 0x5A then r + 0x20 else r
  else LowerCase r.

(** What [strings.Map] writes for a rune it maps to [r]: nothing when [r]
    is negative. *)
Definition writeMapped (r : Z) : string :=
  if 0 <=? r then EncodeRune r else "".

(** The second loop of [strings.Map]: every rune is mapped and written. *)
Fixpoint mapRest (mapping : Z -> Z) (rs : list (Z * string)) : string :=
  match rs with
  | [] => ""
  | (c, _) :: rs' => writeMapped (mapping c) +:+ mapRest mapping rs'
  end.

(** [strings.Map(mapping, s)] over the runes of [s]: the runes the mapping
    leaves alone are copied as they stand, up to the first rune it changes
    (an invalid byte, read as [RuneError] of width 1, counts as changed);
    from there on every rune is mapped and written. *)
Fixpoint mapRunes (mapping : Z -> Z) (rs : list (Z * string)) : string :=
  match rs with
  | [] => ""
  | (c, bytes) :: rs' =>
    let r := mapping c in
    if (r =? c) && negb (c =? RuneError) then bytes +:+ mapRunes mapping rs'
    else if (c =? RuneError) && negb (String.length bytes =? 1)%nat && (r =? c)
    then bytes +:+ mapRunes mapping rs'
    else writeMapped r +:+ mapRest mapping rs'
  end.

Definition stringsMap (mapping : Z -> Z) (s : string) : string :=
  mapRunes mapping (range s).

Fixpoint isASCII (s : string) : bool :=
  match s with
  | EmptyString => true
  | String c r => (byteval c <? RuneSelf) && isASCII r
  end.

Fixpoint hasUpper (s : string) : bool :=
  match s with
  | EmptyString => false
  | String c r => between 0x41 (byteval c) 0x5A || hasUpper r
  end.

Fixpoint lowerBytes (s : string) : string :=
  match s with
  | EmptyString => EmptyString
  | String c r =>
    String (if between 0x41 (byteval c) 0x5A then byte_of (byteval c + 0x20) else c)
      (lowerBytes r)
  end.

(** [strings.ToLower(s)] *)
Definition stringsToLower (LowerCase : Z -> Z) (s : string) : string :=
  if isASCII s then
    if negb (hasUpper s) then s else lowerBytes s
  else stringsMap (unicodeToLower LowerCase) s.

(** ** The command [cmd/postgres-mcp] *)
Module main.

Definition modeStdio : string := "stdio".
Definition modeHTTP : string := "http".

(** The values of the flags once [flag.Parse] has run. *)
Record flags := {
  flagMode : string;
  flagDatabaseURL : string;
  flagListen : string;
  flagReadonly : bool;
  flagMaxRows : Z;
  flagTimeout : Z;
  flagHTTPStateless : bool;
  flagHTTPJSON : bool
}.

Record config := {
  Mode : string;
  DatabaseURL : string;
  ListenAddr : string;
  ReadOnly : bool;
  MaxRows : Z;
  RequestTimeout : Z;
  HTTPStateless : bool;
  HTTPJSON : bool
}.

(** [defaultDatabaseURL], over the environment. *)
Definition defaultDatabaseURL (env : gmap string string) : string :=
  match env !! "DATABASE_URL" with
  | Some v => v
  | None => ""
  end.

(** The flags when the command line sets none. *)
Definition defaultFlags (env : gmap string string) : flags :=
  {| flagMode := modeStdio;
     flagDatabaseURL := defaultDatabaseURL env;
     flagListen := ":8080";
     flagReadonly := false;
     flagMaxRows := 0;
     flagTimeout := 0;
     flagHTTPStateless := false;
     flagHTTPJSON := false |}.

(** The two errors of [parseConfig]; the first carries the mode as given. *)
Inductive configError :=
| InvalidMode (mode : string)
| DatabaseURLRequired.

(** [parseConfig], from the parsed flags. *)
Definition parseConfig (LowerCase : Z -> Z) (f : flags) : configError + config :=
  let mode := stringsToLower LowerCase (TrimSpace (flagMode f)) in
  if String.eqb mode modeStdio || String.eqb mode modeHTTP then
    let databaseURL := TrimSpace (flagDatabaseURL f) in
    if String.eqb databaseURL "" then inl DatabaseURLRequired
    else
      inr {| Mode := mode;
             DatabaseURL := databaseURL;
             ListenAddr := TrimSpace (flagListen f);
             ReadOnly := flagReadonly f;
             MaxRows := flagMaxRows f;
             RequestTimeout := flagTimeout f;
             HTTPStateless := flagHTTPStateless f;
             HTTPJSON := flagHTTPJSON f |}
  else inl (InvalidMode (flagMode f)).

(** The [serverOpts] that [main] builds from the configuration and the
    pool. *)
Definition serverOptions (cfg : config) (pool : pgxpool.Pool) : ServerOptions.t :=
  {| ServerOptions.Pool := Some pool;
     ServerOptions.ReadOnly := ReadOnly cfg;
     ServerOptions.MaxRows := MaxRows cfg;
     ServerOptions.RequestTimeout := RequestTimeout cfg |}.

(** The branches of the [switch cfg.Mode] of [main]. *)
Inductive branch := RunStdio | RunHTTP | UnknownMode.

Definition dispatch (cfg : config) : branch :=
  if String.eqb (Mode cfg) modeStdio then RunStdio
  else if String.eqb (Mode cfg) modeHTTP then RunHTTP
  else UnknownMode.

(** The runtime parameters [configurePool] hands to the pool, from those of
    the parsed connection string ([None]: a nil map). *)
Definition runtimeParams (params : option (gmap string string)) : gmap string string :=
  let params :=
    match params with
    | None => ∅
    | Some m => m
    end in
  match params !! "application_name" with
  | Some _ => params
  | None => <["application_name" := "postgres-mcp-go"]> params
  end.

(** A [statusWriter]: the fields beside the embedded [http.ResponseWriter]. *)
Record statusWriter := { status : Z; bytes : Z }.

Definition StatusOK : Z := 200.

Section ResponseWriter.

(** The embedded [http.ResponseWriter]: its state and its two methods that
    [statusWriter] overrides.  [Write] returns the count written and the
    error. *)
Variable W : Type.
Variable underlyingWriteHeader : W -> Z -> W.
Variable underlyingWrite : W -> string -> W * (Z * option error).

(** [statusWriter.WriteHeader] *)
Definition WriteHeader (w : statusWriter * W) (code : Z) : statusWriter * W :=
  ({| status := code; bytes := bytes (fst w) |},
   underlyingWriteHeader (snd w) code).

(** [statusWriter.Write] *)
Definition Write (w : statusWriter * W) (p : string) :
    (statusWriter * W) * (Z * option error) :=
  let '(u, (n, err)) := underlyingWrite (snd w) p in
  (({| status := status (fst w); bytes := wrap64 (bytes (fst w) + n) |}, u),
   (n, err)).

(** What a handler does with the writer it is given: a sequence of calls
    of [WriteHeader] and [Write], each possibly chosen from the results of
    the earlier ones. *)
Inductive handler :=
| Done
| CallWriteHeader (code : Z) (next : handler)
| CallWrite (p : string) (next : Z -> option error -> handler).

(** [next.ServeHTTP(w, r)] on the bare writer. *)
Fixpoint serveDirect (next : handler) (u : W) : W :=
  match next with
  | Done => u
  | CallWriteHeader code k => serveDirect k (underlyingWriteHeader u code)
  | CallWrite p k =>
    let '(u', (n, err)) := underlyingWrite u p in serveDirect (k n err) u'
  end.

(** [next.ServeHTTP(sw, r)] on a [statusWriter]. *)
Fixpoint serveWrapped (next : handler) (w : statusWriter * W) : statusWriter * W :=
  match next with
  | Done => w
  | CallWriteHeader code k => serveWrapped k (WriteHeader w code)
  | CallWrite p k =>
    let '(w', (n, err)) := Write w p in serveWrapped (k n err) w'
  end.

(** The status codes a handler sets and the counts its writes return, in
    order, on the bare writer. *)
Fixpoint codes (next : handler) (u : W) : list Z :=
  match next with
  | Done => []
  | CallWriteHeader code k => code :: codes k (underlyingWriteHeader u code)
  | CallWrite p k =>
    let '(u', (n, err)) := underlyingWrite u p in codes (k n err) u'
  end.

Fixpoint written (next : handler) (u : W) : list Z :=
  match next with
  | Done => []
  | CallWriteHeader code k => written k (underlyingWriteHeader u code)
  | CallWrite p k =>
    let '(u', (n, err)) := underlyingWrite u p in n :: written (k n err) u'
  end.

(** The handler function [httpLoggingMiddleware] returns for a logger that
    is not nil: the writer after the request, and the status and byte count
    it logs. *)
Definition logged (next : handler) (u : W) : W * (Z * Z) :=
  let sw := serveWrapped next ({| status := StatusOK; bytes := 0 |}, u) in
  (snd sw, (status (fst sw), bytes (fst sw))).

End ResponseWriter.

End main.

Module Demo3.

(** Case tables that map nothing beyond ASCII. *)
Definition lowerCase (r : Z) : Z := r.

Definition flags : main.flags :=
  {| main.flagMode := " HTTP ";
     main.flagDatabaseURL := " postgres://u@h/db ";
     main.flagListen := ":8080";
     main.flagReadonly := true;
     main.flagMaxRows := -5;
     main.flagTimeout := 0;
     main.flagHTTPStateless := false;
     main.flagHTTPJSON := false |}.

Definition config : main.config :=
  {| main.Mode := "http";
     main.DatabaseURL := "postgres://u@h/db";
     main.ListenAddr := ":8080";
     main.ReadOnly := true;
     main.MaxRows := -5;
     main.RequestTimeout := 0;
     main.HTTPStateless := false;
     main.HTTPJSON := false |}.

End Demo3.

(** ** The token loop without its white-space branch *)

(** The token loop of [firstKeyword] with the branch
    [builder.Len() == 0 && unicode.IsSpace(r)] taken out. *)
Fixpoint scanLetters (T : Tables) (rs : list (Z * string)) (builder : string) : string :=
  match rs with
  | [] => builder
  | (r, _) :: rs' =>
    if IsLetter T r || (r =? 0x5F) then
      scanLetters T rs' (builder +:+ EncodeRune (ToUpper T r))
    else builder
  end.

(** [firstKeyword] with that loop. *)
Definition firstKeywordLetters (T : Tables) (sql : string) : string :=
  let s := TrimSpace sql in
  match skipLeading (String.length s) s with
  | None => ""
  | Some s =>
    if String.eqb s "" then "" else scanLetters T (range s) ""
  end.

(** ** The size of a value *)

(** The number of nodes of a value, maps and sequences counted with what
    they hold. *)
Fixpoint anySize (a : any) : nat :=
  match a with
  | MapAny m => S (map_fold (fun _ v n => anySize v + n)%nat O m)
  | SliceAny l => S (foldr (fun v n => anySize v + n)%nat O l)
  | _ => 1%nat
  end.


(** * Properties *)

(** ** Strings *)

Lemma len_nonneg s : 0 <= len s.
Proof. unfold len. lia. Qed.

Lemma len_String c s : len (String c s) = len s + 1.
Proof. unfold len. cbn [String.length]. lia. Qed.

Lemma app_String c (a b : string) : String c a +:+ b = String c (a +:+ b).
Proof. reflexivity. Qed.

Lemma app_empty (b : string) : "" +:+ b = b.
Proof. reflexivity. Qed.

Lemma strlen_app (a b : string) :
  String.length (a +:+ b) = (String.length a + String.length b)%nat.
Proof.
  induction a as [|c a IH]; rewrite ?app_String, ?app_empty; simpl; auto.
Qed.

Lemma take_bytes_app (a b : string) : take_bytes (String.length a) (a +:+ b) = a.
Proof.
  induction a as [|c a IH]; rewrite ?app_String, ?app_empty; simpl;
    [now destruct b | now rewrite IH].
Qed.

Lemma drop_bytes_app (a b : string) : drop_bytes (String.length a) (a +:+ b) = b.
Proof.
  induction a as [|c a IH]; rewrite ?app_String, ?app_empty; simpl; auto.
Qed.

Lemma take_drop_bytes n s : take_bytes n s +:+ drop_bytes n s = s.
Proof.
  revert s; induction n as [|n IH]; intros [|c s]; simpl; try reflexivity.
  now rewrite app_String, IH.
Qed.

Lemma length_drop_bytes n s :
  String.length (drop_bytes n s) = (String.length s - n)%nat.
Proof.
  revert s; induction n as [|n IH]; intros [|c s]; cbn; try lia. apply IH.
Qed.

Lemma eqb_empty s : String.eqb s "" = true <-> s = "".
Proof. apply String.eqb_eq. Qed.

Lemma prefix_char c s :
  String.prefix (String c "") s = true <-> exists r, s = String c r.
Proof.
  destruct s as [|b r]; cbn.
  - split; [discriminate | intros [r' H]; discriminate].
  - destruct (ascii_dec c b) as [->|Hne].
    + split; [eauto | now destruct r].
    + split; [discriminate | intros [r' H]; congruence].
Qed.

(** [strings.Count] of a semicolon is the number of semicolons. *)
Lemma Count_semicolons t : Count t ";" = Z.of_nat (semicolons t).
Proof.
  unfold Count. induction t as [|c t IH]; [reflexivity|].
  cbn [countFrom semicolons String.length Nat.pred].
  destruct (Ascii.eqb c ";"%char) eqn:E.
  - apply Ascii.eqb_eq in E; subst c.
    replace (String.prefix ";" (String ";" t)) with true by now destruct t.
    rewrite IH. lia.
  - replace (String.prefix ";" (String c t)) with false; [exact IH|].
    symmetry. apply not_true_is_false. intros H.
    apply prefix_char in H as [r H]. injection H as -> _.
    now rewrite Ascii.eqb_refl in E.
Qed.

Lemma semicolons_app a b : semicolons (a +:+ b) = (semicolons a + semicolons b)%nat.
Proof.
  induction a as [|c a IH]; rewrite ?app_String, ?app_empty; simpl; [reflexivity|].
  destruct (Ascii.eqb c ";"%char); rewrite IH; reflexivity.
Qed.

Lemma LastIndex_lt s sub : -1 <= LastIndex s sub <= len s.
Proof.
  induction s as [|c s IH]; cbn [LastIndex].
  - change (len "") with 0. destruct (String.prefix sub ""); lia.
  - rewrite len_String.
    destruct (0 <=? LastIndex s sub) eqn:E; [lia|].
    destruct (String.prefix sub (String c s)); lia.
Qed.

Lemma LastIndex_app_last p c :
  LastIndex (p +:+ String c "") (String c "") = len p.
Proof.
  induction p as [|b p IH].
  - rewrite app_empty. cbn [LastIndex].
    replace (String.prefix (String c "") (String c "")) with true
      by (symmetry; apply prefix_char; eauto).
    reflexivity.
  - rewrite app_String. cbn [LastIndex]. rewrite IH, len_String.
    pose proof (len_nonneg p). destruct (0 <=? len p) eqn:E; lia.
Qed.

(** Where [LastIndex] finds [c], there is a [c]. *)
Lemma LastIndex_found s c i :
  LastIndex s (String c "") = i -> 0 <= i ->
  s = slice_to s i +:+ String c (slice_from s (i + 1)).
Proof.
  unfold slice_to, slice_from. revert i.
  induction s as [|b s IH]; intros i Hi Hge; cbn [LastIndex] in Hi.
  - cbn in Hi. lia.
  - destruct (0 <=? LastIndex s (String c "")) eqn:E.
    + apply Z.leb_le in E.
      replace (Z.to_nat i) with (S (Z.to_nat (i - 1))) by lia.
      replace (Z.to_nat (i + 1)) with (S (Z.to_nat (i - 1 + 1))) by lia.
      cbn [take_bytes drop_bytes]. rewrite app_String. f_equal.
      apply IH; lia.
    + destruct (String.prefix (String c "") (String b s)) eqn:P; [|lia].
      apply prefix_char in P as [r P]. injection P as -> ->.
      subst i. reflexivity.
Qed.

Lemma drop_bytes_all t : drop_bytes (String.length t) t = "".
Proof. induction t; simpl; auto. Qed.

Lemma ends_with_semicolon t :
  t <> "" -> LastIndex t ";" = len t - 1 ->
  t = slice_to t (len t - 1) +:+ ";".
Proof.
  intros Hne Hidx.
  assert (0 < len t) by (destruct t; [congruence | rewrite len_String; pose proof (len_nonneg t); lia]).
  pose proof (LastIndex_found t ";"%char _ Hidx ltac:(lia)) as Hs.
  replace (slice_from t (len t - 1 + 1)) with "" in Hs; [exact Hs|].
  unfold slice_from. replace (Z.to_nat (len t - 1 + 1)) with (String.length t) by (unfold len; lia).
  now rewrite drop_bytes_all.
Qed.

(** [isSingleStatement] accepts exactly the texts the single-statement rule
    describes. *)
Lemma isSingleStatement_rule (sql : string) :
  isSingleStatement sql = true <-> singleStatementRule sql.
Proof.
  unfold isSingleStatement, singleStatementRule.
  set (t := TrimSpace sql).
  destruct (String.eqb t "") eqn:Et.
  { apply String.eqb_eq in Et. split; [discriminate | intros [H _]; congruence]. }
  apply String.eqb_neq in Et.
  rewrite Count_semicolons.
  destruct (semicolons t) as [|[|n]] eqn:Es.
  - cbn. split; auto.
  - change (Z.of_nat 1 =? 0) with false. change (Z.of_nat 1 >? 1) with false. cbv iota.
    destruct (LastIndex t ";" =? len t - 1) eqn:Ei.
    + apply Z.eqb_eq in Ei. pose proof (ends_with_semicolon t Et Ei) as Hs.
      rewrite Ei. split.
      * intros Hp. split; [exact Et|]. right. split; [reflexivity|].
        exists (slice_to t (len t - 1)). split; [exact Hs|].
        apply negb_true_iff, String.eqb_neq in Hp. exact Hp.
      * intros [_ [H0 | [_ [p [Hp Hq]]]]]; [discriminate|].
        apply negb_true_iff, String.eqb_neq.
        replace (slice_to t (len t - 1)) with p; [exact Hq|].
        rewrite Hp. unfold slice_to, len. rewrite strlen_app. cbn [String.length].
        replace (Z.to_nat (Z.of_nat (String.length p + 1) - 1)) with (String.length p) by lia.
        now rewrite take_bytes_app.
    + apply Z.eqb_neq in Ei. split; [discriminate|].
      intros [_ [H0 | [_ [p [Hp Hq]]]]]; [discriminate|].
      exfalso. apply Ei. rewrite Hp, LastIndex_app_last.
      unfold len. rewrite strlen_app. cbn [String.length]. lia.
  - replace (Z.of_nat (S (S n)) =? 0) with false by (symmetry; apply Z.eqb_neq; lia).
    replace (Z.of_nat (S (S n)) >? 1) with true by (symmetry; apply Z.gtb_lt; lia).
    split; [discriminate|]. intros [_ [H0 | [H1 _]]]; discriminate.
Qed.

(** ** The row limit *)

Lemma effectiveLimit_negative d o : o < 0 -> effectiveLimit d o = inl InvalidLimit.
Proof. intros H. unfold effectiveLimit. now rewrite (proj2 (Z.ltb_lt o 0) H). Qed.

Lemma effectiveLimit_override d o :
  0 < o -> o < d \/ d = 0 -> effectiveLimit d o = inr o.
Proof.
  intros Ho Hd. unfold effectiveLimit.
  rewrite (proj2 (Z.ltb_ge o 0)) by lia.
  rewrite (proj2 (Z.gtb_lt o 0)) by lia.
  destruct Hd as [Hd | ->]; [|reflexivity].
  rewrite (proj2 (Z.ltb_lt o d) Hd). now rewrite orb_true_r.
Qed.

Lemma effectiveLimit_default d o :
  0 <= o -> o = 0 \/ (d <> 0 /\ d <= o) -> effectiveLimit d o = inr d.
Proof.
  intros Ho Hd. unfold effectiveLimit.
  rewrite (proj2 (Z.ltb_ge o 0)) by lia.
  destruct Hd as [-> | [Hd1 Hd2]]; [reflexivity|].
  rewrite (proj2 (Z.eqb_neq d 0) Hd1), (proj2 (Z.ltb_ge o d) Hd2).
  now rewrite andb_false_r.
Qed.

Lemma effectiveLimit_positive d o L :
  1 <= d -> effectiveLimit d o = inr L -> 1 <= L.
Proof.
  unfold effectiveLimit. intros Hd.
  destruct (o <? 0); [discriminate|].
  destruct (o >? 0) eqn:Ho; cbn [andb].
  - apply Z.gtb_lt in Ho.
    destruct ((d =? 0) || (o <? d)); intros [= <-]; lia.
  - intros [= <-]; lia.
Qed.

Lemma NewServer_maxRows opts p :
  ServerOptions.Pool opts = Some p ->
  exists h, NewServer opts = inr h /\ pool h = p /\
    readOnly h = ServerOptions.ReadOnly opts /\
    maxRows h = (if ServerOptions.MaxRows opts <=? 0 then 200
                 else ServerOptions.MaxRows opts).
Proof. intros Hp. unfold NewServer. rewrite Hp. eexists. repeat split. Qed.

Lemma NewServer_inv opts h :
  NewServer opts = inr h ->
  maxRows h = (if ServerOptions.MaxRows opts <=? 0 then 200
               else ServerOptions.MaxRows opts).
Proof.
  unfold NewServer. destruct (ServerOptions.Pool opts); [|discriminate].
  now intros [= <-].
Qed.

Section CallFacts.

Variable T : Tables.
Variable unrepresentable : math.float64 -> Z.

(** A call whose statement passes the guard and whose limit is computed
    goes on to the pool and the row loop. *)
Lemma call_inv h input out :
  call T unrepresentable h input = inr out ->
  exists limit rows st,
    guard T (readOnly h) (TrimSpace (SQL input)) = None /\
    effectiveLimit (maxRows h) (MaxRows input) = inr limit /\
    pgxpool.Query (pool h) (TrimSpace (SQL input))
      (normalizeArgument unrepresentable <$> Args input) = inr rows /\
    rowLoop limit (pgx.FieldDescriptions rows) (pgx.stream rows)
      {| dataRows := []; count := 0; trunc := false |} = inr st /\
    (trunc st = false -> pgx.Err rows = None) /\
    out = {| Command := commandString (pgx.CommandTag rows);
             RowCount :=
               (if (count st =? 0)
                   && (Z.of_nat (List.length (pgx.FieldDescriptions rows)) =? 0)
                then pgconn.RowsAffected (pgx.CommandTag rows) else count st);
             Columns := pgx.FieldDescriptions rows;
             Rows := dataRows st;
             Truncated := trunc st |}.
Proof.
  unfold call.
  destruct (guard T (readOnly h) (TrimSpace (SQL input))) eqn:G; [discriminate|].
  cbn [check bind].
  destruct (effectiveLimit (maxRows h) (MaxRows input)) as [e|limit] eqn:L;
    [discriminate|]. cbn [bind].
  destruct (pgxpool.Query _ _ _) as [e|rows] eqn:Q; [discriminate|]. cbn [bind].
  destruct (rowLoop _ _ _ _) as [e|st] eqn:R; [discriminate|]. cbn [bind].
  destruct (if trunc st then None else pgx.Err rows) as [e|] eqn:E;
    [discriminate|]. cbn [check bind].
  intros Hout. injection Hout as Hout. subst out.
  exists limit, rows, st. repeat split; [exact R|].
  intros Ht. now rewrite Ht in E.
Qed.

(** A negative override is refused once the guard has passed, whatever the
    pool would answer. *)
Lemma call_negative_limit h input :
  guard T (readOnly h) (TrimSpace (SQL input)) = None ->
  MaxRows input < 0 ->
  call T unrepresentable h input = inl InvalidLimit.
Proof.
  intros G Hm. unfold call. rewrite G. cbn [check bind].
  now rewrite effectiveLimit_negative.
Qed.

End CallFacts.
(** ** The row loop *)

Lemma wrap64_small z : minInt64 <= z <= maxInt64 -> wrap64 z = z.
Proof.
  unfold wrap64, minInt64, maxInt64. intros H.
  rewrite Z.mod_small; lia.
Qed.

(** What the loop has done when it is left without an error: it has taken a
    prefix of the stream, one record and one count per row, and it stops
    before a row only at the limit. *)
Lemma rowLoop_inv limit columns stream : forall st st',
  rowLoop limit columns stream st = inr st' ->
  0 <= count st ->
  (0 < limit <= maxInt64 /\ count st <= limit) \/
  count st + Z.of_nat (List.length stream) <= maxInt64 ->
  exists taken rest,
    stream = ((inr <$> taken) ++ rest)%list /\
    dataRows st' = (dataRows st ++ recordsOf columns taken)%list /\
    count st' = count st + Z.of_nat (List.length taken) /\
    (0 < limit -> count st <= limit -> count st' <= limit) /\
    ((rest = [] /\ trunc st' = trunc st) \/
     (rest <> [] /\ trunc st' = true /\ 0 < limit <= count st')).
Proof.
  induction stream as [|row stream IH]; intros st st' H Hc Hb; cbn [rowLoop] in H.
  - injection H as <-. exists [], []. cbn. rewrite app_nil_r.
    repeat split; try lia. now left.
  - destruct ((limit >? 0) && (count st >=? limit)) eqn:Hl.
    + injection H as <-. apply andb_true_iff in Hl as [H1 H2].
      apply Z.gtb_lt in H1. apply Z.geb_le in H2.
      exists [], (row :: stream). cbn. rewrite app_nil_r.
      repeat split; try lia. right. repeat split; [discriminate|lia|lia].
    + destruct row as [err|values]; [discriminate|].
      assert (Hlt : limit <= 0 \/ count st < limit).
      { apply andb_false_iff in Hl as [Hl|Hl];
          [rewrite Z.gtb_ltb in Hl; apply Z.ltb_ge in Hl
          |rewrite Z.geb_leb in Hl; apply Z.leb_gt in Hl]; lia. }
      assert (Hw : wrap64 (count st + 1) = count st + 1).
      { apply wrap64_small. cbn [List.length] in Hb. unfold minInt64, maxInt64 in *. lia. }
      rewrite Hw in H.
      apply IH in H; cbn [count dataRows trunc] in *; [|lia|].
      * destruct H as (taken & rest & Hs & Hd & Hcnt & Hle & Hr).
        exists (values :: taken), rest. cbn [fmap list_fmap List.length].
        repeat split.
        -- now rewrite Hs.
        -- rewrite Hd, <- app_assoc. reflexivity.
        -- lia.
        -- intros; apply Hle; lia.
        -- exact Hr.
      * destruct Hb as [Hb|Hb]; [left; lia | right; cbn [List.length] in Hb; lia].
Qed.
(** The loop does not fail when every [rows.Values()] it calls succeeds. *)
Lemma rowLoop_returns limit columns values : forall st,
  exists st', rowLoop limit columns (inr <$> values) st = inr st'.
Proof.
  induction values as [|v values IH]; intros st; cbn [fmap list_fmap rowLoop].
  - eauto.
  - destruct ((limit >? 0) && (count st >=? limit)); [eauto|]. apply IH.
Qed.

Section RowFacts.

Variable T : Tables.
Variable unrepresentable : math.float64 -> Z.

(** C4.  For an execution with effective limit [L > 0] that returns a
    result: when the result set has exactly [L + 1] rows, [L] rows are
    returned and [truncated] is true; when it has [L] rows or fewer, all of
    them are returned and [truncated] is false; and [truncated] is true
    exactly when the result set has more rows than were returned. *)
Theorem call_truncation h input rows out L :
  effectiveLimit (maxRows h) (MaxRows input) = inr L ->
  0 < L <= maxInt64 ->
  pgxpool.Query (pool h) (TrimSpace (SQL input))
    (normalizeArgument unrepresentable <$> Args input) = inr rows ->
  call T unrepresentable h input = inr out ->
  let n := Z.of_nat (List.length (pgx.stream rows)) in
  let returned := Z.of_nat (List.length (Rows out)) in
  (n = L + 1 -> returned = L /\ Truncated out = true) /\
  (n <= L ->
   exists values, pgx.stream rows = inr <$> values /\
     Rows out = recordsOf (Columns out) values /\ Truncated out = false) /\
  (Truncated out = true <-> returned < n).
Proof.
  intros HL Hpos HQ Hcall n returned. subst n returned.
  apply call_inv in Hcall as (L' & rows' & st & _ & HL' & HQ' & Hloop & _ & ->).
  rewrite HL in HL'. injection HL' as <-.
  rewrite HQ in HQ'. injection HQ' as <-.
  cbn [Rows Truncated Columns].
  apply rowLoop_inv in Hloop; cbn [count dataRows trunc] in *; [|lia|left; lia].
  destruct Hloop as (taken & rest & Hs & Hd & Hc & Hle & Hr).
  specialize (Hle ltac:(lia) ltac:(lia)).
  rewrite Hd, Hs. cbn [app]. unfold recordsOf.
  rewrite !List.length_app, !length_fmap.
  destruct Hr as [[-> Ht] | (Hne & Ht & Hlim)].
  - rewrite Ht, app_nil_r. cbn [List.length]. repeat split; try lia; try discriminate.
    intros _. exists taken. repeat split.
  - assert (0 < List.length rest)%nat by (destruct rest; [congruence | cbn; lia]).
    repeat split; try lia; try assumption. intros _; assumption.
Qed.

(** C6.  For a successful execution, [rowCount] is the number of rows
    returned; except that when no row was returned and the result set has
    no columns, [rowCount] is the count the command tag reports (and
    columns and rows are empty). *)
Theorem call_rowCount h input rows out :
  pgxpool.Query (pool h) (TrimSpace (SQL input))
    (normalizeArgument unrepresentable <$> Args input) = inr rows ->
  call T unrepresentable h input = inr out ->
  Z.of_nat (List.length (pgx.stream rows)) <= maxInt64 ->
  (Rows out = [] /\ Columns out = [] ->
   RowCount out = pgconn.RowsAffected (pgx.CommandTag rows)) /\
  (~ (Rows out = [] /\ Columns out = []) ->
   RowCount out = Z.of_nat (List.length (Rows out))).
Proof.
  intros HQ Hcall Hn.
  apply call_inv in Hcall as (L & rows' & st & _ & _ & HQ' & Hloop & _ & ->).
  rewrite HQ in HQ'. injection HQ' as <-.
  cbn [Rows Columns RowCount].
  apply rowLoop_inv in Hloop; cbn [count dataRows trunc] in *; [|lia|right; lia].
  destruct Hloop as (taken & rest & _ & Hd & Hc & _).
  assert (Hlen : count st = Z.of_nat (List.length (dataRows st))).
  { rewrite Hd, Hc. cbn [app]. unfold recordsOf. rewrite length_fmap. lia. }
  split.
  - intros [Hr Hcols]. rewrite Hlen, Hr, Hcols. reflexivity.
  - intros Hnot. rewrite <- Hlen.
    destruct (count st =? 0) eqn:E0; [|reflexivity].
    destruct (Z.of_nat (List.length (pgx.FieldDescriptions rows)) =? 0) eqn:E1;
      [|reflexivity].
    exfalso. apply Hnot. apply Z.eqb_eq in E0, E1. split.
    + destruct (dataRows st); [reflexivity | cbn in Hlen; lia].
    + destruct (pgx.FieldDescriptions rows); [reflexivity | cbn in E1; lia].
Qed.

(** A call returns a result when the guard and the limit pass, the pool
    answers, every [rows.Values()] succeeds and the rows report no error. *)
Lemma call_returns h input L rows values :
  guard T (readOnly h) (TrimSpace (SQL input)) = None ->
  effectiveLimit (maxRows h) (MaxRows input) = inr L ->
  pgxpool.Query (pool h) (TrimSpace (SQL input))
    (normalizeArgument unrepresentable <$> Args input) = inr rows ->
  pgx.stream rows = inr <$> values ->
  pgx.Err rows = None ->
  exists out, call T unrepresentable h input = inr out.
Proof.
  intros G HL HQ Hs He. unfold call. rewrite G, HL. cbn [check bind].
  rewrite HQ. cbn [bind]. rewrite Hs.
  destruct (rowLoop_returns L (pgx.FieldDescriptions rows) values
              {| dataRows := []; count := 0; trunc := false |}) as [st ->].
  cbn [bind]. rewrite He. destruct (trunc st); cbn [check bind]; eauto.
Qed.

End RowFacts.
(** ** The record of a row *)

Lemma fillRecord_lookup columns : forall i values (record : gmap string any) col,
  fillRecord columns i values record !! col =
  match lastIndexOf col columns with
  | Some j => Some (cell values (i + j))
  | None => record !! col
  end.
Proof.
  induction columns as [|c columns IH]; intros i values record col;
    cbn [fillRecord lastIndexOf]; [reflexivity|].
  rewrite IH. destruct (lastIndexOf col columns) as [j|].
  - f_equal. f_equal. lia.
  - rewrite lookup_insert. destruct (decide (c = col)) as [->|Hne].
    + unfold cell. now rewrite Nat.add_0_r.
    + reflexivity.
Qed.

Lemma lastIndexOf_None col columns :
  lastIndexOf col columns = None <-> col ∉ columns.
Proof.
  induction columns as [|c columns IH]; cbn [lastIndexOf].
  - split; [intros _; apply not_elem_of_nil | reflexivity].
  - destruct (lastIndexOf col columns) as [j|] eqn:E.
    + split; [discriminate|]. intros Hn. exfalso.
      assert (col ∉ columns) as Hn' by (intros ?; apply Hn; now right).
      apply IH in Hn'. discriminate.
    + destruct (decide (c = col)) as [->|Hne].
      * split; [discriminate|]. intros Hn. exfalso. apply Hn. now left.
      * split; [|reflexivity]. intros _ Hin.
        apply elem_of_cons in Hin as [->|Hin]; [congruence|].
        now apply IH in Hin.
Qed.

Lemma lastIndexOf_Some col columns j :
  columns !! j = Some col ->
  (forall k, (j < k)%nat -> columns !! k <> Some col) ->
  lastIndexOf col columns = Some j.
Proof.
  revert j. induction columns as [|c columns IH]; intros j Hj Hlast.
  - discriminate.
  - cbn [lastIndexOf]. destruct j as [|j].
    + injection Hj as ->.
      destruct (lastIndexOf col columns) as [k|] eqn:E.
      * exfalso.
        assert (Hk : columns !! k = Some col).
        { clear -E. revert k E. induction columns as [|c columns IH]; intros k E;
            cbn [lastIndexOf] in E; [discriminate|].
          destruct (lastIndexOf col columns) as [k'|].
          - injection E as <-. cbn. now apply IH.
          - destruct (decide (c = col)) as [->|]; [|discriminate].
            injection E as <-. reflexivity. }
        apply (Hlast (S k)); [lia | exact Hk].
      * now rewrite decide_True.
    + cbn in Hj. rewrite (IH j Hj); [reflexivity|].
      intros k Hk. apply (Hlast (S k)). lia.
Qed.

Lemma fillRecord_dom columns : forall i values (record : gmap string any),
  dom (fillRecord columns i values record) = list_to_set columns ∪ dom record.
Proof.
  induction columns as [|c columns IH]; intros i values record;
    cbn [fillRecord list_to_set].
  - now rewrite union_empty_l_L.
  - rewrite IH, dom_insert_L.
    rewrite (union_comm_L {[c]} (list_to_set columns)).
    now rewrite union_assoc_L.
Qed.

Lemma size_list_to_set_le (l : list string) :
  (size (list_to_set l : gset string) <= List.length l)%nat /\
  (~ NoDup l -> (size (list_to_set l : gset string) < List.length l)%nat).
Proof.
  induction l as [|c l [IH1 IH2]]; cbn [list_to_set List.length].
  - split; [rewrite size_empty; lia | intros H; exfalso; apply H; constructor].
  - destruct (decide (c ∈ l)) as [Hin|Hnin].
    + rewrite (subseteq_union_1_L {[c]} (list_to_set l))
        by (apply singleton_subseteq_l, elem_of_list_to_set, Hin).
      split; [lia | intros _; lia].
    + rewrite size_union
        by (apply disjoint_singleton_l; rewrite elem_of_list_to_set; exact Hnin).
      rewrite size_singleton.
      split; [lia|]. intros Hnd.
      assert (~ NoDup l) by (intros ?; apply Hnd; now constructor).
      specialize (IH2 ltac:(assumption)). lia.
Qed.

(** The records the loop has collected are those of rows of the stream. *)
Lemma rowLoop_records limit columns stream : forall st st',
  rowLoop limit columns stream st = inr st' ->
  exists taken,
    dataRows st' = (dataRows st ++ recordsOf columns taken)%list /\
    forall values, values ∈ taken -> inr values ∈ stream.
Proof.
  induction stream as [|row stream IH]; intros st st' H; cbn [rowLoop] in H.
  - injection H as <-. exists []. cbn. rewrite app_nil_r. split; [reflexivity|].
    intros v Hv. now apply elem_of_nil in Hv.
  - destruct ((limit >? 0) && (count st >=? limit)).
    + injection H as <-. exists []. cbn. rewrite app_nil_r. split; [reflexivity|].
      intros v Hv. now apply elem_of_nil in Hv.
    + destruct row as [err|values]; [discriminate|].
      apply IH in H as (taken & Hd & Hin). cbn [dataRows] in Hd.
      exists (values :: taken). split.
      * rewrite Hd, <- app_assoc. reflexivity.
      * intros v Hv. apply elem_of_cons in Hv as [->|Hv]; [now left|].
        right. now apply Hin.
Qed.

Section RecordFacts.

Variable T : Tables.
Variable unrepresentable : math.float64 -> Z.

(** C10.  Every returned record is built from the values of one row of the
    result set by writing the columns in order into a map keyed by name:
    under a name it holds the cell of the last column of that name, or nil
    when the row has no value at that index; names that are not columns are
    absent; it has at most as many entries as there are columns, and fewer
    when a name repeats. *)
Theorem returned_record h input rows out (record : gmap string any) :
  pgxpool.Query (pool h) (TrimSpace (SQL input))
    (normalizeArgument unrepresentable <$> Args input) = inr rows ->
  call T unrepresentable h input = inr out ->
  record ∈ Rows out ->
  exists values,
    inr values ∈ pgx.stream rows /\
    record = fillRecord (Columns out) 0 values ∅ /\
    (forall col j,
       Columns out !! j = Some col ->
       (forall k, (j < k)%nat -> Columns out !! k <> Some col) ->
       record !! col =
       Some (match values !! j with
             | Some v => normalizeValue v
             | None => Nil
             end)) /\
    (forall col, col ∉ Columns out -> record !! col = None) /\
    (size record <= List.length (Columns out))%nat /\
    (~ NoDup (Columns out) -> (size record < List.length (Columns out))%nat).
Proof.
  intros HQ Hcall Hrec.
  apply call_inv in Hcall as (L & rows' & st & _ & _ & HQ' & Hloop & _ & ->).
  rewrite HQ in HQ'. injection HQ' as <-.
  cbn [Rows Columns] in *.
  apply rowLoop_records in Hloop as (taken & Hd & Hin).
  cbn [dataRows app] in Hd. rewrite Hd in Hrec.
  unfold recordsOf in Hrec. apply list_elem_of_fmap in Hrec as (values & -> & Hv).
  exists values. split; [now apply Hin|]. split; [reflexivity|].
  repeat split.
  - intros col j Hj Hlast. rewrite fillRecord_lookup.
    now rewrite (lastIndexOf_Some col _ j Hj Hlast).
  - intros col Hn. rewrite fillRecord_lookup.
    apply lastIndexOf_None in Hn. now rewrite Hn.
  - rewrite <- size_dom, fillRecord_dom, dom_empty_L, union_empty_r_L.
    apply size_list_to_set_le.
  - intros Hnd. rewrite <- size_dom, fillRecord_dom, dom_empty_L, union_empty_r_L.
    now apply size_list_to_set_le.
Qed.

End RecordFacts.

(** ** Runes and trimming *)

Lemma Decode_size c r : snd (DecodeRuneInString (String c r)) <> O.
Proof.
  unfold DecodeRuneInString.
  destruct (accept (byteval c)) as [lo hi].
  repeat match goal with
         | |- context [if ?b then _ else _] => destruct b
         | |- context [match ?s with EmptyString => _ | String _ _ => _ end] =>
           destruct s
         end; cbn; congruence.
Qed.

(** The runes of a text, taken together, are the text. *)
Lemma rangeFrom_join s : forall k, joinBytes (rangeFrom k s) = drop_bytes k s.
Proof.
  induction s as [|c r IH]; intros k.
  - now destruct k.
  - cbn [rangeFrom]. destruct k as [|k]; [|apply IH].
    pose proof (Decode_size c r) as Hsz.
    destruct (DecodeRuneInString (String c r)) as [rn size]. cbn [snd] in Hsz.
    destruct size as [|p]; [congruence|].
    cbn [joinBytes snd Nat.pred take_bytes drop_bytes].
    rewrite IH, app_String. now rewrite take_drop_bytes.
Qed.

Lemma range_join s : joinBytes (range s) = s.
Proof. unfold range. now rewrite rangeFrom_join. Qed.

Lemma joinBytes_app l1 l2 : joinBytes (l1 ++ l2) = joinBytes l1 +:+ joinBytes l2.
Proof.
  induction l1 as [|x l1 IH]; cbn [joinBytes app]; [reflexivity|].
  rewrite IH. generalize (snd x) as a. intros a.
  induction a as [|c a IHa]; rewrite ?app_String, ?app_empty; congruence.
Qed.

Lemma dropWhile_suffix {A} (f : A -> bool) l :
  exists a, l = (a ++ dropWhile f l)%list.
Proof.
  induction l as [|x l [a IH]]; cbn [dropWhile].
  - now exists [].
  - destruct (f x); [|now exists []].
    exists (x :: a). cbn. now rewrite <- IH.
Qed.

(** [strings.TrimSpace] returns a slice of its argument. *)
Lemma TrimSpace_slice s : exists a b, s = a +:+ TrimSpace s +:+ b.
Proof.
  unfold TrimSpace.
  destruct (dropWhile_suffix isSpaceRune (range s)) as [a Ha].
  destruct (dropWhile_suffix isSpaceRune (rev (dropWhile isSpaceRune (range s))))
    as [b Hb].
  apply (f_equal (@rev _)) in Hb. rewrite rev_involutive, rev_app_distr in Hb.
  exists (joinBytes a), (joinBytes (rev b)).
  rewrite <- !joinBytes_app, <- Hb, <- Ha. symmetry. apply range_join.
Qed.

Lemma TrimSpace_length s : (String.length (TrimSpace s) <= String.length s)%nat.
Proof.
  destruct (TrimSpace_slice s) as (a & b & H).
  rewrite H at 2. rewrite !strlen_app. lia.
Qed.

Lemma TrimSpace_empty : TrimSpace "" = "".
Proof. reflexivity. Qed.

(** ** The comment loop of [firstKeyword] terminates *)

Lemma HasPrefix_nonempty s p :
  p <> "" -> HasPrefix s p = true -> (0 < String.length s)%nat.
Proof.
  unfold HasPrefix. destruct s as [|c s]; [|cbn; lia].
  destruct p; [congruence | discriminate].
Qed.

Lemma shorter_after s i :
  (0 < String.length s)%nat -> 0 <= i ->
  (String.length (TrimSpace (slice_from s (i + 1))) < String.length s)%nat /\
  (String.length (TrimSpace (slice_from s (i + 2))) < String.length s)%nat.
Proof.
  intros Hs Hi. unfold slice_from.
  pose proof (TrimSpace_length (drop_bytes (Z.to_nat (i + 1)) s)).
  pose proof (TrimSpace_length (drop_bytes (Z.to_nat (i + 2)) s)).
  rewrite length_drop_bytes in *. lia.
Qed.

Section ClassifierFacts.

Variable T : Tables.

(** Any fuel from the length of the text on gives the same result: the
    loop has ended by then. *)
Lemma skipLeading_fuel : forall n m s,
  (String.length s <= n)%nat -> (String.length s <= m)%nat ->
  skipLeading n s = skipLeading m s.
Proof.
  induction n as [|n IH]; intros m s Hn Hm.
  - destruct s; [|cbn in Hn; lia]. now destruct m.
  - destruct m as [|m].
    { destruct s; [reflexivity | cbn in Hm; lia]. }
    cbn [skipLeading].
    destruct (HasPrefix s "--") eqn:P1.
    + destruct (IndexByte s "010" <? 0) eqn:E; [reflexivity|].
      apply Z.ltb_ge in E.
      pose proof (HasPrefix_nonempty s "--" ltac:(discriminate) P1) as Hs.
      destruct (shorter_after s _ Hs E) as [H1 _].
      apply IH; lia.
    + destruct (HasPrefix s "/*") eqn:P2; [|reflexivity].
      destruct (Index s "*/" <? 0) eqn:E; [reflexivity|].
      apply Z.ltb_ge in E.
      pose proof (HasPrefix_nonempty s "/*" ltac:(discriminate) P2) as Hs.
      destruct (shorter_after s _ Hs E) as [_ H2].
      apply IH; lia.
Qed.

(** One turn of the loop. *)
Lemma skipLeading_step s :
  skipLeading (String.length s) s =
  if HasPrefix s "--" then
    let newline := IndexByte s "010"%char in
    if newline <? 0 then None
    else
      let s' := TrimSpace (slice_from s (newline + 1)) in
      skipLeading (String.length s') s'
  else if HasPrefix s "/*" then
    let end_ := Index s "*/" in
    if end_ <? 0 then None
    else
      let s' := TrimSpace (slice_from s (end_ + 2)) in
      skipLeading (String.length s') s'
  else Some s.
Proof.
  destruct (String.length s) as [|n] eqn:Hlen.
  - destruct s; [reflexivity | discriminate].
  - cbn [skipLeading].
    destruct (HasPrefix s "--") eqn:P1.
    + cbv zeta. destruct (IndexByte s "010" <? 0) eqn:E; [reflexivity|].
      apply Z.ltb_ge in E.
      pose proof (HasPrefix_nonempty s "--" ltac:(discriminate) P1) as Hs.
      destruct (shorter_after s _ Hs E) as [H1 _].
      apply skipLeading_fuel; lia.
    + destruct (HasPrefix s "/*") eqn:P2; [|reflexivity].
      cbv zeta. destruct (Index s "*/" <? 0) eqn:E; [reflexivity|].
      apply Z.ltb_ge in E.
      pose proof (HasPrefix_nonempty s "/*" ltac:(discriminate) P2) as Hs.
      destruct (shorter_after s _ Hs E) as [_ H2].
      apply skipLeading_fuel; lia.
Qed.

End ClassifierFacts.

(** ** The read-only rule *)

Section ReadOnlyFacts.

Variable T : Tables.
Variable unrepresentable : math.float64 -> Z.

Lemma allowedReadOnly_lookup kw :
  is_Some (allowedReadOnly !! kw) <-> kw ∈ readOnlyKeywords.
Proof.
  unfold allowedReadOnly, readOnlyKeywords.
  rewrite !lookup_insert, lookup_empty, !elem_of_cons, elem_of_nil.
  repeat case_decide; subst;
    (split; [intros [u Hu]; try discriminate; auto 10
            | intros Hin; try (eexists; reflexivity); exfalso; intuition congruence]).
Qed.

Lemma isReadOnlyStatement_keyword sql :
  isReadOnlyStatement T sql = true <-> firstKeyword T sql ∈ readOnlyKeywords.
Proof.
  unfold isReadOnlyStatement.
  destruct (String.eqb (firstKeyword T sql) "") eqn:E.
  - apply String.eqb_eq in E. rewrite E. split; [discriminate|].
    unfold readOnlyKeywords. rewrite !elem_of_cons, elem_of_nil.
    intuition discriminate.
  - rewrite <- allowedReadOnly_lookup.
    destruct (allowedReadOnly !! firstKeyword T sql) as [u|].
    + split; eauto.
    + split; [discriminate | intros [? ?]; discriminate].
Qed.

(** C1.  Under read-only mode the read-only check lets a statement through
    exactly when its classified keyword is one of SELECT, WITH, SHOW,
    EXPLAIN, VALUES, TABLE; an empty keyword is refused; the guard then
    answers what the first two rules answer or, when they pass, refuses
    with [MutatingStatementRejected] unless the keyword is in the set, and
    [call] does the same.  ["DELETE FROM t"] is refused and
    ["  select * from t"] is let through. *)
Theorem readOnly_rule :
  (forall sql,
     isReadOnlyStatement T sql = true <-> firstKeyword T sql ∈ readOnlyKeywords) /\
  (forall sql, firstKeyword T sql = "" -> isReadOnlyStatement T sql = false) /\
  (forall sqlText,
     guard T true sqlText =
     match guard T false sqlText with
     | Some e => Some e
     | None =>
       if bool_decide (firstKeyword T sqlText ∈ readOnlyKeywords) then None
       else Some MutatingStatementRejected
     end) /\
  (forall h input,
     readOnly h = true ->
     guard T false (TrimSpace (SQL input)) = None ->
     (firstKeyword T (TrimSpace (SQL input)) ∈ readOnlyKeywords ->
      call T unrepresentable h input =
      call T unrepresentable (withReadOnly false h) input) /\
     (firstKeyword T (TrimSpace (SQL input)) ∉ readOnlyKeywords ->
      call T unrepresentable h input = inl MutatingStatementRejected)) /\
  guard T true (TrimSpace "DELETE FROM t") = Some MutatingStatementRejected /\
  guard T true (TrimSpace "  select * from t") = None.
Proof.
  assert (Hguard : forall sqlText,
     guard T true sqlText =
     match guard T false sqlText with
     | Some e => Some e
     | None =>
       if bool_decide (firstKeyword T sqlText ∈ readOnlyKeywords) then None
       else Some MutatingStatementRejected
     end).
  { intros sqlText. unfold guard.
    destruct (String.eqb sqlText ""); [reflexivity|].
    destruct (isSingleStatement sqlText); [|reflexivity].
    cbn [negb andb].
    destruct (isReadOnlyStatement T sqlText) eqn:E.
    - apply isReadOnlyStatement_keyword in E. now rewrite bool_decide_true.
    - rewrite bool_decide_false; [reflexivity|].
      rewrite <- isReadOnlyStatement_keyword. congruence. }
  split; [exact isReadOnlyStatement_keyword|].
  split.
  { intros sql E. unfold isReadOnlyStatement. now rewrite E. }
  split; [exact Hguard|].
  split.
  { intros h input Hro Hg. unfold call. cbn [withReadOnly readOnly pool maxRows].
    rewrite Hro, Hguard, Hg. split; intros Hk.
    - now rewrite bool_decide_true.
    - now rewrite bool_decide_false. }
  split; vm_compute; reflexivity.
Qed.

End ReadOnlyFacts.

(** ** The inbound normalizer *)

Section ArgumentFacts.

Variable unrepresentable : math.float64 -> Z.

Lemma shiftr_exact m k q : 0 <= k -> m = q * 2 ^ k -> Z.shiftr m k = q.
Proof.
  intros Hk ->. rewrite Z.shiftr_div_pow2 by lia.
  apply Z.div_mul. apply Z.pow_nonzero; lia.
Qed.

(** A finite float is integral or has a fractional part. *)
Lemma integral_or_fractional s m e :
  (exists z, denotes (S754_finite s m e) z) \/
  (e < 0 /\ Zpos m mod 2 ^ (- e) <> 0).
Proof.
  cbn [denotes]. destruct (0 <=? e) eqn:He.
  - left. eexists. reflexivity.
  - apply Z.leb_gt in He.
    destruct (Z.eq_dec (Zpos m mod 2 ^ (- e)) 0) as [Hz|Hz]; [left | right; auto].
    assert (Hp : 0 < 2 ^ (- e)) by (apply Z.pow_pos_nonneg; lia).
    pose proof (Z.div_mod (Zpos m) (2 ^ (- e)) ltac:(lia)) as Hdm.
    rewrite Hz, Z.add_0_r in Hdm.
    pose proof (Z.div_pos (Zpos m) (2 ^ (- e)) ltac:(lia) Hp) as Hq.
    exists (cond_Zopp s (Zpos m / 2 ^ (- e))).
    assert (Ha : Z.abs (cond_Zopp s (Zpos m / 2 ^ (- e))) = Zpos m / 2 ^ (- e))
      by (destruct s; cbn [cond_Zopp]; lia).
    rewrite Ha. split; [lia | reflexivity].
Qed.

(** An integral float passes the test [math.Trunc(v) == v]. *)
Lemma Trunc_eq_integral x z : denotes x z -> math.eq (math.Trunc x) x = true.
Proof.
  destruct x as [s|s| |s m e]; cbn [denotes math.Trunc]; try contradiction.
  - reflexivity.
  - destruct (0 <=? e) eqn:He.
    + intros _. unfold math.eq. rewrite Z.min_id, Z.sub_diag, eqb_reflx.
      now rewrite Z.eqb_refl.
    + apply Z.leb_gt in He. intros [Hm Hz].
      assert (Hq : 0 < Z.abs z) by nia.
      rewrite (shiftr_exact (Zpos m) (- e) (Z.abs z)) by lia.
      destruct (Z.abs z) as [|q|q] eqn:Ea; try lia.
      unfold math.eq. rewrite eqb_reflx. cbn [andb].
      rewrite Z.min_r by lia. rewrite Z.sub_diag, Z.sub_0_l.
      apply Z.eqb_eq. rewrite Hm. cbn [Z.pow]. lia.
Qed.

Lemma intPart_integral x z : denotes x z -> math.intPart x = Some z.
Proof.
  destruct x as [s|s| |s m e]; cbn [denotes math.intPart]; try contradiction.
  - now intros ->.
  - destruct (0 <=? e) eqn:He.
    + now intros ->.
    + apply Z.leb_gt in He. intros [Hm Hz].
      rewrite (shiftr_exact (Zpos m) (- e) (Z.abs z)) by lia. now rewrite <- Hz.
Qed.

(** X2.  A float that denotes an integer within the [int64] range becomes
    that integer. *)
Theorem normalizeArgument_integral x z :
  denotes x z -> minInt64 <= z <= maxInt64 ->
  normalizeArgument unrepresentable (Float64 x) = Int64 z.
Proof.
  intros Hd Hr. cbn [normalizeArgument].
  rewrite (Trunc_eq_integral x z Hd). unfold math.toInt64.
  rewrite (intPart_integral x z Hd).
  now rewrite (proj2 (Z.leb_le _ _) (proj1 Hr)), (proj2 (Z.leb_le _ _) (proj2 Hr)).
Qed.

(** A finite float with a fractional part stays as it is. *)
Lemma normalizeArgument_fractional s m e :
  e < 0 -> Zpos m mod 2 ^ (- e) <> 0 ->
  normalizeArgument unrepresentable (Float64 (S754_finite s m e)) =
  Float64 (S754_finite s m e).
Proof.
  intros He Hf. cbn [normalizeArgument math.Trunc].
  rewrite (proj2 (Z.leb_gt 0 e) He).
  assert (Hp : 0 < 2 ^ (- e)) by (apply Z.pow_pos_nonneg; lia).
  pose proof (Z.div_mod (Zpos m) (2 ^ (- e)) ltac:(lia)) as Hdm.
  pose proof (Z.mod_pos_bound (Zpos m) (2 ^ (- e)) Hp) as Hb.
  pose proof (Z.div_pos (Zpos m) (2 ^ (- e)) ltac:(lia) Hp) as Hq.
  rewrite Z.shiftr_div_pow2 by lia.
  destruct (Zpos m / 2 ^ (- e)) as [|q|q] eqn:Eq; try lia; [reflexivity|].
  replace (math.eq (S754_finite s q 0) (S754_finite s m e)) with false; [reflexivity|].
  symmetry. unfold math.eq. rewrite eqb_reflx. cbn [andb].
  rewrite Z.min_r by lia. rewrite Z.sub_diag, Z.sub_0_l.
  apply Z.eqb_neq. cbn [Z.pow]. lia.
Qed.

(** Whatever the conversion yields for an integer part outside the [int64]
    range, it is not that integer. *)
Lemma toInt64_out_of_range x z :
  math.intPart x = Some z -> ~ (minInt64 <= z <= maxInt64) ->
  math.toInt64 unrepresentable x <> z /\
  minInt64 <= math.toInt64 unrepresentable x <= maxInt64.
Proof.
  intros Hi Hr. unfold math.toInt64. rewrite Hi.
  destruct ((minInt64 <=? z) && (z <=? maxInt64)) eqn:E.
  { apply andb_true_iff in E as [E1 E2]. apply Z.leb_le in E1, E2. lia. }
  assert (minInt64 <= wrap64 (unrepresentable x) <= maxInt64).
  { unfold wrap64, minInt64, maxInt64.
    pose proof (Z.mod_pos_bound (unrepresentable x + 2 ^ 63) (2 ^ 64) ltac:(lia)). lia. }
  split; [lia | assumption].
Qed.


(** The part of the claim the code meets: integral floats in range, floats
    with a fraction, maps, sequences and everything else. *)
Lemma normalizeArgument_cases :
  normalizeArgument unrepresentable (Float64 (math.lit 3 0)) = Int64 3 /\
  normalizeArgument unrepresentable (Float64 (math.lit 7 (-1))) =
    Float64 (math.lit 7 (-1)) /\
  (forall (m : gmap string any) k,
     exists m', normalizeArgument unrepresentable (MapAny m) = MapAny m' /\
       dom m' = dom m /\
       m' !! k = normalizeArgument unrepresentable <$> (m !! k)) /\
  (forall (l : list any) i,
     exists l', normalizeArgument unrepresentable (SliceAny l) = SliceAny l' /\
       List.length l' = List.length l /\
       l' !! i = normalizeArgument unrepresentable <$> (l !! i)) /\
  (forall arg,
     match arg with
     | Float64 _ | MapAny _ | SliceAny _ => True
     | _ => normalizeArgument unrepresentable arg = arg
     end).
Proof.
  split; [reflexivity|]. split; [reflexivity|]. split; [|split].
  - intros m k. eexists. split; [reflexivity|]. split.
    + apply dom_fmap_L.
    + apply lookup_fmap.
  - intros l i. eexists. split; [reflexivity|]. split.
    + apply length_fmap.
    + apply list_lookup_fmap.
  - intros []; cbn; auto.
Qed.

(** C7.  The float 1e19 has no fractional part, yet [normalizeArgument]
    turns it into an [int64] that is not 10^19, whatever the platform's
    conversion of unrepresentable values yields. *)
Theorem normalizeArgument_out_of_range :
  math.valid (math.lit (10 ^ 19) 0) = true /\
  denotes (math.lit (10 ^ 19) 0) (10 ^ 19) /\
  exists z,
    normalizeArgument unrepresentable (Float64 (math.lit (10 ^ 19) 0)) = Int64 z /\
    minInt64 <= z <= maxInt64 /\
    z <> 10 ^ 19.
Proof.
  split; [reflexivity|]. split; [vm_compute; reflexivity|].
  assert (Hd : denotes (math.lit (10 ^ 19) 0) (10 ^ 19)) by (vm_compute; reflexivity).
  cbn [normalizeArgument]. rewrite (Trunc_eq_integral _ _ Hd).
  eexists. split; [reflexivity|].
  pose proof (toInt64_out_of_range (math.lit (10 ^ 19) 0) (10 ^ 19)
                (intPart_integral _ _ Hd)) as H.
  destruct H as [H1 H2]; [unfold minInt64, maxInt64; lia|]. split; assumption.
Qed.

End ArgumentFacts.

Lemma normalizeArgument_integral_witness :
  normalizeArgument Demo.unrepresentable (Float64 (math.lit (-5) 0)) = Int64 (-5).
Proof.
  apply (normalizeArgument_integral Demo.unrepresentable (math.lit (-5) 0) (-5)).
  - vm_compute. split; reflexivity.
  - unfold minInt64, maxInt64. lia.
Defined.

(** ** The outbound normalizer *)

Lemma zone_UTC : time.zone 0 = "Z".
Proof. reflexivity. Qed.

Lemma app_assoc_string (a b c : string) : (a +:+ b) +:+ c = a +:+ (b +:+ c).
Proof.
  induction a as [|x a IH]; rewrite ?app_String, ?app_empty; congruence.
Qed.

(** A time in UTC is rendered with the zone designator [Z]. *)
Lemma Format_UTC_Z t :
  exists body, time.FormatRFC3339Nano (time.UTC t) = body +:+ "Z".
Proof.
  unfold time.FormatRFC3339Nano, time.UTC. cbn [time.sec time.nsec time.offset].
  destruct (time.civil _) as [[y m] d]. rewrite zone_UTC.
  rewrite <- !app_assoc_string. eexists. reflexivity.
Qed.

(** C8.  [normalizeValue] turns a byte sequence into the text of the same
    bytes; renders a time in UTC in the layout of RFC 3339 with
    nanoseconds, ending in [Z] and independent of the time's location, so
    that the instant 2024-01-01T00:00:00Z is rendered as that text; renders
    a valid numeric (by value or by pointer) as its text and an invalid or
    nil one as nil; renders any other value with a [String] method through
    it; and returns every other value unchanged. *)
Theorem normalizeValue_cases :
  (forall b, normalizeValue (Bytes b) = Str b) /\
  (forall t,
     normalizeValue (Time t) = Str (time.FormatRFC3339Nano (time.UTC t)) /\
     exists body, time.FormatRFC3339Nano (time.UTC t) = body +:+ "Z") /\
  (forall t t',
     time.sec t = time.sec t' -> time.nsec t = time.nsec t' ->
     normalizeValue (Time t) = normalizeValue (Time t')) /\
  (forall off,
     normalizeValue
       (Time {| time.sec := 1704067200; time.nsec := 0; time.offset := off |}) =
     Str "2024-01-01T00:00:00Z") /\
  (forall off,
     normalizeValue
       (Time {| time.sec := 1704067200; time.nsec := 123456789;
                time.offset := off |}) =
     Str "2024-01-01T00:00:00.123456789Z") /\
  (forall n,
     normalizeValue (Numeric n) =
     if pgtype.Valid n then Str (pgtype.String_ n) else Nil) /\
  normalizeValue (NumericPtr None) = Nil /\
  (forall n,
     normalizeValue (NumericPtr (Some n)) =
     if pgtype.Valid n then Str (pgtype.String_ n) else Nil) /\
  (forall type text, normalizeValue (Stringer type text) = Str text) /\
  (forall v,
     match v with
     | Bytes _ | Time _ | Numeric _ | NumericPtr _ | Stringer _ _ => True
     | _ => normalizeValue v = v
     end).
Proof.
  split; [reflexivity|].
  split; [intros t; split; [reflexivity | apply Format_UTC_Z]|].
  split.
  { intros [s n o] [s' n' o']; cbn [time.sec time.nsec]; intros -> ->. reflexivity. }
  split; [intros off; vm_compute; reflexivity|].
  split; [intros off; vm_compute; reflexivity|].
  split; [intros [[] txt]; reflexivity|].
  split; [reflexivity|].
  split; [intros [[] txt]; reflexivity|].
  split; [reflexivity|].
  intros []; cbn; auto.
Qed.

(** ** The claims on the limit and the constructor *)

Section LimitFacts.

Variable T : Tables.
Variable unrepresentable : math.float64 -> Z.

(** C3.  The effective limit: a negative override is refused with
    [InvalidLimit] (by [call] too, once the guard has passed and before the
    pool is asked); a positive override smaller than the configured
    default, or any positive override when the default is zero, is the
    limit; otherwise the configured default is.  The constructor replaces
    a configured default of zero or less by 200.  Default 200 and override
    50 give 50, default 0 and override 10 give 10, default 200 and override
    500 give 200. *)
Theorem effective_limit :
  (forall d o, o < 0 -> effectiveLimit d o = inl InvalidLimit) /\
  (forall d o, 0 < o -> o < d \/ d = 0 -> effectiveLimit d o = inr o) /\
  (forall d o, 0 <= o -> o = 0 \/ (d <> 0 /\ d <= o) -> effectiveLimit d o = inr d) /\
  (forall opts p,
     ServerOptions.Pool opts = Some p ->
     exists h, NewServer opts = inr h /\
       maxRows h = (if ServerOptions.MaxRows opts <=? 0 then 200
                    else ServerOptions.MaxRows opts)) /\
  (forall h input,
     guard T (readOnly h) (TrimSpace (SQL input)) = None ->
     MaxRows input < 0 ->
     call T unrepresentable h input = inl InvalidLimit) /\
  effectiveLimit 200 50 = inr 50 /\
  effectiveLimit 0 10 = inr 10 /\
  effectiveLimit 200 500 = inr 200.
Proof.
  split; [exact effectiveLimit_negative|].
  split; [exact effectiveLimit_override|].
  split; [exact effectiveLimit_default|].
  split.
  { intros opts p Hp. destruct (NewServer_maxRows opts p Hp) as (h & H1 & _ & _ & H2).
    eauto. }
  split; [exact (call_negative_limit T unrepresentable)|].
  repeat split.
Qed.

End LimitFacts.

(** C9.  The handler of a server built by [NewServer] has a default limit
    of at least 1, so every limit a call through it computes is at least 1
    and never the unbounded 0. *)
Theorem NewServer_limit_positive opts h :
  NewServer opts = inr h ->
  1 <= maxRows h /\
  (forall o, 0 <= o -> exists L, effectiveLimit (maxRows h) o = inr L /\ 1 <= L) /\
  (forall o L, effectiveLimit (maxRows h) o = inr L -> 1 <= L /\ L <> 0).
Proof.
  intros Hn. apply NewServer_inv in Hn.
  assert (Hm : 1 <= maxRows h).
  { rewrite Hn. destruct (ServerOptions.MaxRows opts <=? 0) eqn:E; [lia|].
    apply Z.leb_gt in E. lia. }
  split; [exact Hm|]. split.
  - intros o Ho. unfold effectiveLimit.
    rewrite (proj2 (Z.ltb_ge o 0) Ho).
    destruct ((o >? 0) && ((maxRows h =? 0) || (o <? maxRows h))) eqn:E.
    + apply andb_true_iff in E as [E _]. apply Z.gtb_lt in E.
      exists o. split; [reflexivity | lia].
    + exists (maxRows h). split; [reflexivity | exact Hm].
  - intros o L HL. pose proof (effectiveLimit_positive _ _ _ Hm HL). lia.
Qed.

(** ** The classifier and block comments *)

Section CommentFacts.

Variable T : Tables.

(** An unterminated leading comment leaves no keyword. *)
Lemma firstKeyword_unterminated sql :
  let s := TrimSpace sql in
  (HasPrefix s "--" = true /\ IndexByte s "010"%char < 0) \/
  (HasPrefix s "--" = false /\ HasPrefix s "/*" = true /\ Index s "*/" < 0) ->
  firstKeyword T sql = "".
Proof.
  intros s H. unfold firstKeyword. fold s. rewrite skipLeading_step.
  destruct H as [[H1 H2] | (H1 & H2 & H3)].
  - rewrite H1. cbv zeta. now rewrite (proj2 (Z.ltb_lt _ _) H2).
  - rewrite H1, H2. cbv zeta. now rewrite (proj2 (Z.ltb_lt _ _) H3).
Qed.

(** C5.  On ["/*/ select */ delete from t"] the code takes the [*/] that
    overlaps the opening [/*] for the end of the comment and answers
    SELECT, where the keyword after the block comment is DELETE; under
    read-only mode the guard lets the statement through. *)
Theorem firstKeyword_overlapping_close :
  firstKeyword T "/*/ select */ delete from t" = "SELECT" /\
  firstKeywordSpec T "/*/ select */ delete from t" = "DELETE" /\
  guard T true (TrimSpace "/*/ select */ delete from t") = None.
Proof. repeat split; vm_compute; reflexivity. Qed.

End CommentFacts.

(** ** The single-statement rule, with its instances *)

Lemma ends_with_char p c : forall x b,
  p +:+ String c "" = x +:+ b -> b <> "" -> exists b', b = b' +:+ String c "".
Proof.
  induction p as [|e p IH]; intros x b H Hb.
  - destruct x as [|d x]; rewrite ?app_String, ?app_empty in H.
    + exists "". now rewrite app_empty.
    + injection H as _ H. destruct x; rewrite ?app_String, ?app_empty in H;
        [congruence | discriminate].
  - destruct x as [|d x]; rewrite ?app_String, ?app_empty in H.
    + exists (String e p). now rewrite app_String.
    + injection H as _ H. now apply (IH x b).
Qed.

Section SingleStatementFacts.

Variable T : Tables.

(** C2.  [isSingleStatement] is true exactly when the trimmed text is not
    empty and holds no semicolon, or exactly one, at its end, with
    something other than white space before it.  The lone [";"] fails,
    ["SELECT 1;"] passes with keyword SELECT, and a text with more than one
    semicolon or with a semicolon before its end fails. *)
Theorem single_statement_rule :
  (forall sql, isSingleStatement sql = true <-> singleStatementRule sql) /\
  isSingleStatement ";" = false /\
  (isSingleStatement "SELECT 1;" = true /\ firstKeyword T "SELECT 1;" = "SELECT") /\
  (forall sql,
     (1 < semicolons (TrimSpace sql))%nat -> isSingleStatement sql = false) /\
  (forall sql a b,
     TrimSpace sql = a +:+ ";" +:+ b -> b <> "" -> isSingleStatement sql = false).
Proof.
  split; [exact isSingleStatement_rule|].
  split; [reflexivity|].
  split; [split; vm_compute; reflexivity|].
  split.
  - intros sql Hn. apply not_true_is_false. intros H.
    apply isSingleStatement_rule in H as [_ [H | [H _]]]; lia.
  - intros sql a b Ht Hb. apply not_true_is_false. intros H.
    apply isSingleStatement_rule in H as [_ H]. cbv zeta in H.
    rewrite Ht in H. rewrite !semicolons_app in H. cbn [semicolons] in H.
    change (Ascii.eqb ";" ";") with true in H. cbv iota in H.
    destruct H as [H | [H (p & Hp & _)]]; [lia|].
    rewrite <- app_assoc_string in Hp. symmetry in Hp.
    apply ends_with_char in Hp as [b' ->]; [|exact Hb].
    rewrite semicolons_app in H. cbn [semicolons] in H.
    change (Ascii.eqb ";" ";") with true in H. cbv iota in H. lia.
Qed.

End SingleStatementFacts.

(** ** Instances *)

Lemma effective_limit_witness : effectiveLimit 200 (-1) = inl InvalidLimit.
Proof.
  apply (proj1 (effective_limit Demo.tables Demo.unrepresentable) 200 (-1)). lia.
Defined.

Lemma NewServer_limit_positive_witness :
  1 <= maxRows Demo.handler /\
  (forall o, 0 <= o ->
     exists L, effectiveLimit (maxRows Demo.handler) o = inr L /\ 1 <= L) /\
  (forall o L, effectiveLimit (maxRows Demo.handler) o = inr L -> 1 <= L /\ L <> 0).
Proof.
  apply (NewServer_limit_positive Demo.opts Demo.handler). reflexivity.
Defined.

Lemma call_truncation_witness :
  Z.of_nat (List.length (Rows (Demo.result Demo.selectTwo))) = 2 /\
  Truncated (Demo.result Demo.selectTwo) = true.
Proof.
  apply (call_truncation Demo.tables Demo.unrepresentable Demo.handler
           Demo.selectTwo Demo.threeRows (Demo.result Demo.selectTwo) 2).
  - reflexivity.
  - unfold maxInt64. lia.
  - reflexivity.
  - vm_compute. reflexivity.
  - reflexivity.
Defined.

Lemma call_rowCount_witness :
  RowCount (Demo.result Demo.update) = 5.
Proof.
  apply (call_rowCount Demo.tables Demo.unrepresentable Demo.handler
           Demo.update Demo.updated (Demo.result Demo.update)).
  - reflexivity.
  - vm_compute. reflexivity.
  - unfold maxInt64. cbn. lia.
  - split; reflexivity.
Defined.

Lemma returned_record_witness :
  exists values,
    inr values ∈ pgx.stream Demo.threeRows /\
    Demo.firstRecord = fillRecord (Columns (Demo.result Demo.selectTwo)) 0 values ∅ /\
    (forall col j,
       Columns (Demo.result Demo.selectTwo) !! j = Some col ->
       (forall k, (j < k)%nat ->
          Columns (Demo.result Demo.selectTwo) !! k <> Some col) ->
       Demo.firstRecord !! col =
       Some (match values !! j with
             | Some v => normalizeValue v
             | None => Nil
             end)) /\
    (forall col,
       col ∉ Columns (Demo.result Demo.selectTwo) -> Demo.firstRecord !! col = None) /\
    (size Demo.firstRecord <= List.length (Columns (Demo.result Demo.selectTwo)))%nat /\
    (~ NoDup (Columns (Demo.result Demo.selectTwo)) ->
     (size Demo.firstRecord < List.length (Columns (Demo.result Demo.selectTwo)))%nat).
Proof.
  apply (returned_record Demo.tables Demo.unrepresentable Demo.handler
           Demo.selectTwo Demo.threeRows (Demo.result Demo.selectTwo)
           Demo.firstRecord).
  - reflexivity.
  - vm_compute. reflexivity.
  - apply list_elem_of_lookup. exists 0%nat. vm_compute. reflexivity.
Defined.
Lemma readOnly_rule_witness :
  call Demo.tables Demo.unrepresentable (withReadOnly true Demo.handler) Demo.delete =
  inl MutatingStatementRejected.
Proof.
  apply (proj1 (proj2 (proj2 (proj2
           (readOnly_rule Demo.tables Demo.unrepresentable))))
           (withReadOnly true Demo.handler) Demo.delete).
  - reflexivity.
  - vm_compute. reflexivity.
  - vm_compute. intros H. repeat (apply elem_of_cons in H as [H|H]; [discriminate|]).
    now apply elem_of_nil in H.
Defined.

Lemma single_statement_rule_witness : isSingleStatement " a;b; " = false.
Proof.
  apply (proj1 (proj2 (proj2 (proj2 (single_statement_rule Demo.tables))))).
  vm_compute. lia.
Defined.

(** ** Where the classifier meets its description *)

Lemma app_empty_r (a : string) : a +:+ "" = a.
Proof. induction a as [|c a IH]; rewrite ?app_String, ?app_empty; congruence. Qed.

Lemma prefix_app p y : String.prefix p (p +:+ y) = true.
Proof.
  induction p as [|c p IH]; rewrite ?app_String, ?app_empty.
  - now destruct y.
  - cbn [String.prefix]. destruct (ascii_dec c c); [exact IH | congruence].
Qed.

Lemma prefix_split p : forall t, String.prefix p t = true -> exists y, t = p +:+ y.
Proof.
  induction p as [|c p IH]; intros t H.
  - exists t. now rewrite app_empty.
  - destruct t as [|d t]; [discriminate|]. cbn [String.prefix] in H.
    destruct (ascii_dec c d) as [->|]; [|discriminate].
    destruct (IH t H) as [y ->]. exists y. now rewrite app_String.
Qed.

(** The indices the searches return lie within the text, so the slices
    [firstKeyword] takes at them exist. *)
Lemma IndexByte_bounds s c : 0 <= IndexByte s c -> IndexByte s c + 1 <= len s.
Proof.
  induction s as [|b s IH]; cbn [IndexByte]; [lia|].
  rewrite len_String. pose proof (len_nonneg s).
  destruct (Ascii.eqb b c); [lia|].
  destruct (IndexByte s c <? 0) eqn:E; [lia|]. apply Z.ltb_ge in E. lia.
Qed.

Lemma Index_bounds s p : 0 <= Index s p -> Index s p + len p <= len s.
Proof.
  induction s as [|b s IH]; cbn [Index].
  - destruct (String.prefix p "") eqn:P; [|lia]. intros _.
    apply prefix_split in P as [y P]. rewrite P. unfold len. rewrite strlen_app. lia.
  - destruct (String.prefix p (String b s)) eqn:P.
    + intros _. apply prefix_split in P as [y P]. rewrite P. unfold len.
      rewrite strlen_app. lia.
    + rewrite len_String.
      destruct (Index s p <? 0) eqn:E; [lia|]. apply Z.ltb_ge in E. lia.
Qed.

Lemma Index_lower s p : -1 <= Index s p.
Proof.
  induction s as [|c s IH]; cbn [Index].
  - destruct (String.prefix p ""); lia.
  - destruct (String.prefix p (String c s)); [lia|].
    destruct (Index s p <? 0) eqn:E; [lia|]. apply Z.ltb_ge in E. lia.
Qed.

Lemma IndexByte_lower s c : -1 <= IndexByte s c.
Proof.
  induction s as [|b s IH]; cbn [IndexByte]; [lia|].
  destruct (Ascii.eqb b c); [lia|].
  destruct (IndexByte s c <? 0) eqn:E; [lia|]. apply Z.ltb_ge in E. lia.
Qed.

(** [strings.Index] finds an occurrence exactly when there is one. *)
Lemma Index_occurs t p : 0 <= Index t p <-> exists x y, t = x +:+ p +:+ y.
Proof.
  split.
  - induction t as [|c t IH]; cbn [Index].
    + destruct (String.prefix p "") eqn:P; [|lia]. intros _.
      apply prefix_split in P as [y P]. exists "", y. now rewrite app_empty.
    + destruct (String.prefix p (String c t)) eqn:P.
      * intros _. apply prefix_split in P as [y P]. exists "", y.
        now rewrite app_empty.
      * destruct (Index t p <? 0) eqn:E; [lia|]. apply Z.ltb_ge in E. intros _.
        destruct (IH E) as (x & y & ->). exists (String c x), y.
        now rewrite app_String.
  - intros (x & y & ->). induction x as [|c x IH]; rewrite ?app_String, ?app_empty.
    + destruct (p +:+ y) eqn:E; cbn [Index]; rewrite <- E, prefix_app; lia.
    + cbn [Index]. destruct (String.prefix p _); [lia|].
      destruct (Index (x +:+ p +:+ y) p <? 0) eqn:E; [apply Z.ltb_lt in E; lia | lia].
Qed.

(** A pattern that does not occur in a text occurs in none of its slices. *)
Lemma Index_slice a t b p : Index (a +:+ t +:+ b) p < 0 -> Index t p < 0.
Proof.
  intros H. destruct (Z.ltb_spec (Index t p) 0) as [|Hge]; [assumption|].
  apply Index_occurs in Hge as (x & y & ->). exfalso.
  assert (0 <= Index (a +:+ (x +:+ p +:+ y) +:+ b) p); [|lia].
  apply Index_occurs. exists (a +:+ x), (y +:+ b).
  now rewrite !app_assoc_string.
Qed.

Lemma Index_TrimSpace s p : Index s p < 0 -> Index (TrimSpace s) p < 0.
Proof.
  destruct (TrimSpace_slice s) as (a & b & H). rewrite H at 1. apply Index_slice.
Qed.

Lemma Index_slice_from s n p : Index s p < 0 -> Index (drop_bytes n s) p < 0.
Proof.
  rewrite <- (take_drop_bytes n s) at 1.
  rewrite <- (app_empty_r (drop_bytes n s)) at 1. apply Index_slice.
Qed.

Section AgreementFacts.

Variable T : Tables.
Hypothesis letters_not_spaces : forall r, IsSpace r = true -> Letter T r = false.

Lemma ident_not_space x : isIdentRune T x = true -> isSpaceRune x = false.
Proof.
  destruct x as [r bytes]. unfold isIdentRune, isSpaceRune. cbn [fst].
  intros H. apply not_true_is_false. intros Hs.
  apply orb_true_iff in H as [H|H].
  - unfold IsLetter in H. destruct (between 0 r MaxLatin1) eqn:B.
    + unfold IsSpace in Hs. rewrite B in Hs.
      unfold latin1Letter, between in *.
      repeat match goal with
             | H : _ || _ = true |- _ => apply orb_true_iff in H as [H|H]
             | H : _ && _ = true |- _ => apply andb_true_iff in H as [? ?]
             | H : (_ <=? _) = true |- _ => apply Z.leb_le in H
             | H : (_ =? _) = true |- _ => apply Z.eqb_eq in H
             end; lia.
    + rewrite (letters_not_spaces r Hs) in H. discriminate.
  - apply Z.eqb_eq in H. subst r. discriminate.
Qed.

Lemma EncodeRune_nonempty r : EncodeRune r <> "".
Proof.
  unfold EncodeRune, encode3.
  repeat match goal with |- context [if ?b then _ else _] => destruct b end;
    discriminate.
Qed.

Lemma len_app_nonzero b e : e <> "" -> (len (b +:+ e) =? 0) = false.
Proof.
  intros He. apply Z.eqb_neq. unfold len. rewrite strlen_app.
  destruct e; [congruence | cbn; lia].
Qed.

(** Once the builder holds something, the loop copies the identifier
    runes that follow and stops. *)
Lemma scanToken_acc rs : forall b,
  (len b =? 0) = false -> scanToken T rs b = b +:+ upperToken T rs.
Proof.
  induction rs as [|[r bytes] rs IH]; intros b Hb; cbn [scanToken upperToken].
  - now rewrite app_empty_r.
  - unfold isIdentRune. cbn [fst].
    destruct (IsLetter T r || (r =? 95)).
    + rewrite IH by (apply len_app_nonzero, EncodeRune_nonempty).
      apply app_assoc_string.
    + rewrite Hb. cbn [andb]. now rewrite app_empty_r.
Qed.

Lemma scanToken_spec rs :
  scanToken T rs "" = upperToken T (dropWhile isSpaceRune rs).
Proof.
  induction rs as [|[r bytes] rs IH]; cbn [scanToken dropWhile]; [reflexivity|].
  destruct (IsLetter T r || (r =? 95)) eqn:Hid.
  - rewrite (ident_not_space (r, bytes)) by exact Hid.
    cbn [upperToken]. unfold isIdentRune at 1. cbn [fst]. rewrite Hid.
    rewrite app_empty. apply scanToken_acc.
    apply (len_app_nonzero "" _), EncodeRune_nonempty.
  - change (len "" =? 0) with true. cbn [andb]. unfold isSpaceRune at 1. cbn [fst].
    destruct (IsSpace r); [exact IH|].
    cbn [upperToken]. unfold isIdentRune. cbn [fst]. now rewrite Hid.
Qed.

End AgreementFacts.
Lemma IndexByte_after2 c1 c2 body c :
  Ascii.eqb c1 c = false -> Ascii.eqb c2 c = false ->
  IndexByte (String c1 (String c2 body)) c =
  (if IndexByte body c <? 0 then -1 else IndexByte body c + 2).
Proof.
  intros H1 H2. cbn [IndexByte]. rewrite H1, H2.
  pose proof (IndexByte_lower body c).
  destruct (IndexByte body c <? 0) eqn:E; [reflexivity|].
  apply Z.ltb_ge in E.
  replace (IndexByte body c + 1 <? 0) with false by (symmetry; apply Z.ltb_ge; lia).
  lia.
Qed.

(** When the text does not go on with [/] right after the opening [/*], the
    first [*/] of the text is the first one after the opening. *)
Lemma Index_close_after2 body :
  String.prefix "/" body = false ->
  Index (String "/" (String "*" body)) "*/" =
  (if Index body "*/" <? 0 then -1 else Index body "*/" + 2).
Proof.
  intros Hb. cbn [Index].
  change (String.prefix "*/" (String "/" (String "*" body))) with false.
  replace (String.prefix "*/" (String "*" body)) with false
    by (symmetry; destruct body; [reflexivity | exact Hb]).
  pose proof (Index_lower body "*/").
  destruct (Index body "*/" <? 0) eqn:E; [reflexivity|].
  apply Z.ltb_ge in E.
  replace (Index body "*/" + 1 <? 0) with false by (symmetry; apply Z.ltb_ge; lia).
  lia.
Qed.

Lemma no_overlap_head body :
  Index (String "/" (String "*" body)) "/*/" < 0 -> String.prefix "/" body = false.
Proof.
  intros H. apply not_true_is_false. intros P. cbn [Index] in H.
  assert (P' : String.prefix "/*/" (String "/" (String "*" body)) = true)
    by (destruct body; [discriminate | exact P]).
  rewrite P' in H. lia.
Qed.

Lemma slice_from_after2 c1 c2 body i :
  0 <= i -> slice_from (String c1 (String c2 body)) (i + 2) = slice_from body i.
Proof.
  intros Hi. unfold slice_from.
  replace (Z.to_nat (i + 2)) with (S (S (Z.to_nat i))) by lia. reflexivity.
Qed.

Section LoopAgreement.

Variable T : Tables.

(** On a text without [/*/] the comment loop of the code and the one of the
    description leave the same text, or both meet an unterminated
    comment. *)
Lemma skipLeading_agrees : forall n s,
  (String.length s <= n)%nat -> Index s "/*/" < 0 ->
  skipLeadingSpec n s = skipLeading (String.length (TrimSpace s)) (TrimSpace s).
Proof.
  induction n as [|n IH]; intros s Hn Hno.
  { destruct s; [reflexivity | cbn in Hn; lia]. }
  rewrite skipLeading_step.
  pose proof (TrimSpace_length s) as Hlen.
  pose proof (Index_TrimSpace s "/*/" Hno) as Hnot.
  cbn [skipLeadingSpec]. set (t := TrimSpace s) in *.
  destruct (HasPrefix t "--") eqn:P1.
  - unfold HasPrefix in P1. apply prefix_split in P1 as [body Ht].
    change ("--" +:+ body) with (String "-" (String "-" body)) in Ht.
    unfold afterLineComment. rewrite Ht. change (slice_from _ 2) with body.
    rewrite IndexByte_after2 by reflexivity.
    pose proof (IndexByte_lower body "010"%char) as Hl. cbv zeta.
    destruct (IndexByte body "010" <? 0) eqn:E; [reflexivity|].
    apply Z.ltb_ge in E.
    replace (IndexByte body "010" + 2 <? 0) with false
      by (symmetry; apply Z.ltb_ge; lia).
    replace (IndexByte body "010" + 2 + 1) with (IndexByte body "010" + 1 + 2) by lia.
    rewrite slice_from_after2 by lia.
    apply IH.
    + unfold slice_from. rewrite length_drop_bytes.
      rewrite Ht in Hlen. cbn [String.length] in Hlen. lia.
    + unfold slice_from. apply Index_slice_from.
      rewrite Ht in Hnot.
      apply (Index_slice "--" body "" "/*/"). now rewrite app_empty_r.
  - destruct (HasPrefix t "/*") eqn:P2; [|reflexivity].
    unfold HasPrefix in P2. apply prefix_split in P2 as [body Ht].
    change ("/*" +:+ body) with (String "/" (String "*" body)) in Ht.
    unfold afterBlockComment. rewrite Ht. change (slice_from _ 2) with body.
    rewrite Ht in Hnot.
    rewrite Index_close_after2 by (now apply no_overlap_head).
    pose proof (Index_lower body "*/") as Hl. cbv zeta.
    destruct (Index body "*/" <? 0) eqn:E; [reflexivity|].
    apply Z.ltb_ge in E.
    replace (Index body "*/" + 2 <? 0) with false
      by (symmetry; apply Z.ltb_ge; lia).
    rewrite slice_from_after2 by lia.
    apply IH.
    + unfold slice_from. rewrite length_drop_bytes.
      rewrite Ht in Hlen. cbn [String.length] in Hlen. lia.
    + unfold slice_from. apply Index_slice_from.
      apply (Index_slice "/*" body "" "/*/"). now rewrite app_empty_r.
Qed.

(** X1.  On a text in which [/*/] does not occur, and with tables in which
    no white-space rune is a letter, [firstKeyword] returns the keyword the
    description names: the first identifier token in upper case after the
    leading white space, line comments and block comments, and the empty
    string when there is no token or a leading comment is not closed. *)
Theorem firstKeyword_agrees sql :
  (forall r, IsSpace r = true -> Letter T r = false) ->
  Index sql "/*/" < 0 ->
  firstKeyword T sql = firstKeywordSpec T sql.
Proof.
  intros HT Hno. unfold firstKeyword, firstKeywordSpec.
  rewrite (skipLeading_agrees (String.length sql) sql) by (auto; lia).
  destruct (skipLeading _ _) as [s|]; [|reflexivity].
  destruct (String.eqb s "") eqn:E.
  - apply String.eqb_eq in E. now subst s.
  - now apply scanToken_spec.
Qed.

End LoopAgreement.

Lemma firstKeyword_agrees_witness :
  firstKeyword Demo.tables "-- pick
 /* all */ select * from t" =
  firstKeywordSpec Demo.tables "-- pick
 /* all */ select * from t".
Proof.
  apply (firstKeyword_agrees Demo.tables).
  - reflexivity.
  - vm_compute. reflexivity.
Defined.

(** * Further properties of the handler *)

(** ** Refusals happen before the pool is asked *)

Section RefusalFacts.

Variable T : Tables.
Variable unrepresentable : math.float64 -> Z.


(** The guard refuses with one of its three errors, in the order of the
    rules. *)
Lemma guard_cases ro sqlText :
  guard T ro sqlText =
  if String.eqb sqlText "" then Some EmptyStatement
  else if isSingleStatement sqlText then
    if ro && negb (isReadOnlyStatement T sqlText)
    then Some MutatingStatementRejected else None
  else Some MultiStatementRejected.
Proof.
  unfold guard. destruct (String.eqb sqlText ""); [reflexivity|].
  now destruct (isSingleStatement sqlText).
Qed.

End RefusalFacts.

(** ** Rows come back in order and within the limit *)

(** The loop takes rows from the front of the stream, in order. *)
Lemma rowLoop_prefix limit columns stream : forall st st',
  rowLoop limit columns stream st = inr st' ->
  exists taken rest,
    stream = ((inr <$> taken) ++ rest)%list /\
    dataRows st' = (dataRows st ++ recordsOf columns taken)%list /\
    (trunc st = false -> trunc st' = true -> rest <> [] /\ 0 < limit) /\
    (limit <= 0 -> rest = [] /\ trunc st' = trunc st).
Proof.
  induction stream as [|row stream IH]; intros st st' H; cbn [rowLoop] in H.
  - injection H as <-. exists [], []. cbn. rewrite app_nil_r.
    repeat split; congruence.
  - destruct ((limit >? 0) && (count st >=? limit)) eqn:Hl.
    + injection H as <-. apply andb_true_iff in Hl as [H1 _].
      apply Z.gtb_lt in H1.
      exists [], (row :: stream). cbn. rewrite app_nil_r.
      repeat split; try discriminate; try lia.
    + destruct row as [err|values]; [discriminate|].
      apply IH in H as (taken & rest & Hs & Hd & Ht & Hu).
      cbn [dataRows trunc] in *.
      exists (values :: taken), rest. cbn [fmap list_fmap].
      repeat split.
      * now rewrite Hs.
      * rewrite Hd, <- app_assoc. reflexivity.
      * now apply Ht.
      * now apply Ht.
      * now apply Hu.
      * now apply Hu.
Qed.

(** A failed [rows.Values()] ends the loop with its error exactly when it
    is met before the limit. *)
Lemma rowLoop_error limit columns taken e rest : forall st,
  0 <= count st ->
  limit <= maxInt64 ->
  limit <= 0 \/ count st + Z.of_nat (List.length taken) < limit ->
  (0 < limit \/ count st + Z.of_nat (List.length taken) < maxInt64) ->
  rowLoop limit columns ((inr <$> taken) ++ inl e :: rest) st = inl e.
Proof.
  induction taken as [|v taken IH]; intros st Hc Hmax Hlim Hb;
    cbn [fmap list_fmap app rowLoop List.length] in *.
  - replace ((limit >? 0) && (count st >=? limit)) with false; [reflexivity|].
    symmetry. apply andb_false_iff.
    destruct Hlim as [Hlim|Hlim];
      [left; rewrite Z.gtb_ltb; apply Z.ltb_ge | right; rewrite Z.geb_leb; apply Z.leb_gt];
      lia.
  - replace ((limit >? 0) && (count st >=? limit)) with false.
    + apply IH; cbn [count].
      * rewrite wrap64_small; unfold minInt64, maxInt64 in *; lia.
      * exact Hmax.
      * rewrite wrap64_small; unfold minInt64, maxInt64 in *; lia.
      * rewrite wrap64_small; unfold minInt64, maxInt64 in *; lia.
    + symmetry. apply andb_false_iff.
      destruct Hlim as [Hlim|Hlim];
        [left; rewrite Z.gtb_ltb; apply Z.ltb_ge | right; rewrite Z.geb_leb; apply Z.leb_gt];
        lia.
Qed.
(** At the limit the loop stops without looking at the next row. *)
Lemma rowLoop_truncates limit columns taken next rest : forall st,
  0 <= count st ->
  0 < limit <= maxInt64 ->
  count st + Z.of_nat (List.length taken) = limit ->
  rowLoop limit columns ((inr <$> taken) ++ next :: rest) st =
  inr {| dataRows := dataRows st ++ recordsOf columns taken;
         count := limit; trunc := true |}.
Proof.
  induction taken as [|v taken IH]; intros st Hc Hl Hk;
    cbn [fmap list_fmap app rowLoop List.length] in *.
  - replace ((limit >? 0) && (count st >=? limit)) with true.
    + cbn. rewrite app_nil_r. do 2 f_equal. lia.
    + symmetry. apply andb_true_iff. split;
        [apply Z.gtb_lt | rewrite Z.geb_leb; apply Z.leb_le]; lia.
  - replace ((limit >? 0) && (count st >=? limit)) with false.
    + rewrite IH; cbn [count dataRows trunc].
      * unfold recordsOf. cbn [fmap list_fmap]. now rewrite <- app_assoc.
      * rewrite wrap64_small; unfold minInt64, maxInt64 in *; lia.
      * exact Hl.
      * rewrite wrap64_small; unfold minInt64, maxInt64 in *; lia.
    + symmetry. apply andb_false_iff. right. rewrite Z.geb_leb.
      apply Z.leb_gt. lia.
Qed.

Section OutcomeFacts.

Variable T : Tables.
Variable unrepresentable : math.float64 -> Z.

(** X4.  When [rows.Values()] fails for a row, the call fails with that
    error and returns nothing if the row comes before the limit (or there
    is no limit); a failing row at or after the limit is never read, and
    the call returns the first [L] rows, truncated. *)
Theorem call_iteration_error h input L rows taken e rest :
  guard T (readOnly h) (TrimSpace (SQL input)) = None ->
  effectiveLimit (maxRows h) (MaxRows input) = inr L ->
  L <= maxInt64 ->
  pgxpool.Query (pool h) (TrimSpace (SQL input))
    (normalizeArgument unrepresentable <$> Args input) = inr rows ->
  pgx.stream rows = ((inr <$> taken) ++ inl e :: rest)%list ->
  Z.of_nat (List.length taken) < maxInt64 ->
  (L <= 0 \/ Z.of_nat (List.length taken) < L ->
   call T unrepresentable h input = inl e) /\
  (0 < L <= Z.of_nat (List.length taken) ->
   exists out, call T unrepresentable h input = inr out /\
     Truncated out = true /\
     Rows out = recordsOf (pgx.FieldDescriptions rows) (take (Z.to_nat L) taken)).
Proof.
  intros G HL Hmax HQ Hs Hlen. unfold call. rewrite G, HL. cbn [check bind].
  rewrite HQ. cbn [bind]. split.
  - intros Hlim. rewrite Hs, rowLoop_error; cbn [count]; try lia; reflexivity.
  - intros Hlim.
    assert (Hs' : pgx.stream rows =
                  ((inr <$> take (Z.to_nat L) taken) ++
                   ((inr <$> drop (Z.to_nat L) taken) ++ inl e :: rest))%list)
      by (now rewrite Hs, app_assoc, <- fmap_app, take_drop).
    rewrite Hs'.
    assert (Htake : List.length (take (Z.to_nat L) taken) = Z.to_nat L)
      by (rewrite length_take; lia).
    destruct ((inr <$> drop (Z.to_nat L) taken) ++ inl e :: rest)%list
      as [|next rest'] eqn:Hrest.
    { destruct (drop (Z.to_nat L) taken); discriminate. }
    rewrite rowLoop_truncates; cbn [count dataRows]; try lia.
    cbn [bind trunc check]. eexists. repeat split.
Qed.

(** X5.  A call through a server built by [NewServer] returns at most as
    many rows as the configured limit, and at most as many as a positive
    override asks for; the rows it reports are counted by [rowCount]. *)
Theorem call_rows_bounded opts h input out :
  NewServer opts = inr h ->
  ServerOptions.MaxRows opts <= maxInt64 ->
  MaxRows input <= maxInt64 ->
  call T unrepresentable h input = inr out ->
  Z.of_nat (List.length (Rows out)) <= maxRows h /\
  (0 < MaxRows input -> Z.of_nat (List.length (Rows out)) <= MaxRows input) /\
  (Rows out <> [] -> RowCount out = Z.of_nat (List.length (Rows out))).
Proof.
  intros Hn Ho Hi Hcall.
  pose proof (NewServer_inv _ _ Hn) as Hm.
  assert (Hd : 1 <= maxRows h <= maxInt64).
  { rewrite Hm. destruct (ServerOptions.MaxRows opts <=? 0) eqn:E;
      [unfold maxInt64; lia | apply Z.leb_gt in E; lia]. }
  apply call_inv in Hcall as (L & rows & st & _ & HL & _ & Hloop & _ & ->).
  cbn [Rows RowCount].
  assert (HLb : 1 <= L <= maxRows h /\ (0 < MaxRows input -> L <= MaxRows input)).
  { unfold effectiveLimit in HL. destruct (MaxRows input <? 0); [discriminate|].
    destruct (MaxRows input >? 0) eqn:E1; cbn [andb] in HL.
    - apply Z.gtb_lt in E1.
      destruct ((maxRows h =? 0) || (MaxRows input <? maxRows h)) eqn:E2;
        injection HL as <-.
      + apply orb_true_iff in E2 as [E2|E2];
          [apply Z.eqb_eq in E2 | apply Z.ltb_lt in E2]; lia.
      + apply orb_false_iff in E2 as [_ E2]. apply Z.ltb_ge in E2. lia.
    - injection HL as <-. rewrite Z.gtb_ltb in E1. apply Z.ltb_ge in E1. lia. }
  apply rowLoop_inv in Hloop; cbn [count dataRows trunc] in *; [|lia|left; lia].
  destruct Hloop as (taken & rest & _ & Hd' & Hc & Hle & _).
  specialize (Hle ltac:(lia) ltac:(lia)).
  assert (Hlen : count st = Z.of_nat (List.length (dataRows st))).
  { rewrite Hd', Hc. cbn [app]. unfold recordsOf. rewrite length_fmap. lia. }
  rewrite <- Hlen. repeat split; try lia.
  intros Hne. destruct (count st =? 0) eqn:E0; [|reflexivity].
  apply Z.eqb_eq in E0. destruct (dataRows st); [congruence | cbn in Hlen; lia].
Qed.

(** X6.  The rows a call returns are the first rows of the result set, in
    the order the database produced them, each turned into a record over
    the columns of the result set; a truncated result leaves a row
    behind. *)
Theorem call_rows_in_order h input rows out :
  pgxpool.Query (pool h) (TrimSpace (SQL input))
    (normalizeArgument unrepresentable <$> Args input) = inr rows ->
  call T unrepresentable h input = inr out ->
  Columns out = pgx.FieldDescriptions rows /\
  exists values rest,
    pgx.stream rows = ((inr <$> values) ++ rest)%list /\
    Rows out = recordsOf (Columns out) values /\
    (Truncated out = true -> rest <> []).
Proof.
  intros HQ Hcall.
  apply call_inv in Hcall as (L & rows' & st & _ & _ & HQ' & Hloop & _ & ->).
  rewrite HQ in HQ'. injection HQ' as <-. cbn [Rows Columns Truncated].
  split; [reflexivity|].
  apply rowLoop_prefix in Hloop as (values & rest & Hs & Hd & Ht & _).
  cbn [dataRows trunc app] in *. exists values, rest.
  repeat split; try assumption. intros Htr. now apply Ht.
Qed.

(** X7.  A handler whose configured limit is zero applies no cap unless the
    request sets one, and a handler whose configured limit is negative
    applies no cap at all, a positive override included: every row is
    returned and the result is not truncated. *)
Theorem call_without_cap h input rows out :
  maxRows h <= 0 ->
  MaxRows input = 0 \/ maxRows h < 0 ->
  pgxpool.Query (pool h) (TrimSpace (SQL input))
    (normalizeArgument unrepresentable <$> Args input) = inr rows ->
  call T unrepresentable h input = inr out ->
  exists values,
    pgx.stream rows = inr <$> values /\
    Rows out = recordsOf (Columns out) values /\
    Truncated out = false.
Proof.
  intros Hd Ho HQ Hcall.
  apply call_inv in Hcall as (L & rows' & st & _ & HL & HQ' & Hloop & _ & ->).
  rewrite HQ in HQ'. injection HQ' as <-. cbn [Rows Columns Truncated].
  assert (HLz : L <= 0).
  { unfold effectiveLimit in HL. destruct (MaxRows input <? 0); [discriminate|].
    destruct (MaxRows input >? 0) eqn:E1; cbn [andb] in HL.
    - apply Z.gtb_lt in E1.
      destruct ((maxRows h =? 0) || (MaxRows input <? maxRows h)) eqn:E2;
        injection HL as <-; [|lia].
      apply orb_true_iff in E2 as [E2|E2];
        [apply Z.eqb_eq in E2 | apply Z.ltb_lt in E2]; lia.
    - injection HL as <-. lia. }
  apply rowLoop_prefix in Hloop as (values & rest & Hs & Hdr & _ & Hu).
  destruct (Hu HLz) as [-> Ht]. cbn [dataRows trunc app] in *.
  rewrite app_nil_r in Hs. exists values. repeat split; assumption.
Qed.

End OutcomeFacts.
(** ** What a returned cell can be *)

Lemma normalizeValue_settled v : settled (normalizeValue v).
Proof.
  destruct v as [| | | | | | | | |n|[n|]| |]; cbn; auto;
    destruct (pgtype.Valid n); cbn; auto.
Qed.

Lemma settled_fixed v : settled v -> normalizeValue v = v.
Proof. destruct v; cbn; intros H; try reflexivity; contradiction. Qed.

Section CellFacts.

Variable T : Tables.
Variable unrepresentable : math.float64 -> Z.

(** X8.  No cell of a returned record is a byte sequence, a time, a numeric
    (by value or by pointer) or a value with a [String] method: each has
    been rendered as text or nil, so normalizing a returned cell again
    changes nothing. *)
Theorem returned_cells_settled h input out (record : gmap string any) col v :
  call T unrepresentable h input = inr out ->
  record ∈ Rows out ->
  record !! col = Some v ->
  settled v /\ normalizeValue v = v.
Proof.
  intros Hcall Hrec Hv.
  apply call_inv in Hcall as (L & rows & st & _ & _ & _ & Hloop & _ & ->).
  cbn [Rows] in Hrec.
  apply rowLoop_records in Hloop as (taken & Hd & _).
  cbn [dataRows app] in Hd. rewrite Hd in Hrec.
  unfold recordsOf in Hrec. apply list_elem_of_fmap in Hrec as (values & -> & _).
  rewrite fillRecord_lookup in Hv.
  destruct (lastIndexOf col (pgx.FieldDescriptions rows)) as [j|];
    [|rewrite lookup_empty in Hv; discriminate].
  injection Hv as <-.
  assert (Hs : settled (cell values (0 + j))).
  { unfold cell. destruct (values !! (0 + j)%nat); [apply normalizeValue_settled | exact I]. }
  split; [exact Hs | now apply settled_fixed].
Qed.

End CellFacts.

(** ** Instances *)


Lemma call_iteration_error_witness :
  call Demo.tables Demo.unrepresentable Demo2.brokenHandler Demo2.selectAll =
  inl "unexpected EOF".
Proof.
  apply (call_iteration_error Demo.tables Demo.unrepresentable Demo2.brokenHandler
           Demo2.selectAll 200 Demo2.brokenRow [[Int64 1]] "unexpected EOF"
           [inr [Int64 3]]).
  - vm_compute. reflexivity.
  - reflexivity.
  - unfold maxInt64. lia.
  - reflexivity.
  - reflexivity.
  - unfold maxInt64. cbn. lia.
  - right. cbn. lia.
Defined.

Lemma call_rows_bounded_witness :
  Z.of_nat (List.length (Rows (Demo.result Demo.selectTwo))) <= 200 /\
  (0 < 2 -> Z.of_nat (List.length (Rows (Demo.result Demo.selectTwo))) <= 2) /\
  (Rows (Demo.result Demo.selectTwo) <> [] ->
   RowCount (Demo.result Demo.selectTwo) =
   Z.of_nat (List.length (Rows (Demo.result Demo.selectTwo)))).
Proof.
  apply (call_rows_bounded Demo.tables Demo.unrepresentable Demo.opts Demo.handler
           Demo.selectTwo (Demo.result Demo.selectTwo)).
  - reflexivity.
  - unfold maxInt64. cbn. lia.
  - unfold maxInt64. cbn. lia.
  - vm_compute. reflexivity.
Defined.

Lemma call_rows_in_order_witness :
  Columns (Demo.result Demo.selectTwo) = pgx.FieldDescriptions Demo.threeRows /\
  exists values rest,
    pgx.stream Demo.threeRows = ((inr <$> values) ++ rest)%list /\
    Rows (Demo.result Demo.selectTwo) =
      recordsOf (Columns (Demo.result Demo.selectTwo)) values /\
    (Truncated (Demo.result Demo.selectTwo) = true -> rest <> []).
Proof.
  apply (call_rows_in_order Demo.tables Demo.unrepresentable Demo.handler
           Demo.selectTwo Demo.threeRows (Demo.result Demo.selectTwo)).
  - reflexivity.
  - vm_compute. reflexivity.
Defined.

Lemma call_without_cap_witness :
  exists values,
    pgx.stream Demo.threeRows = inr <$> values /\
    Rows Demo2.uncappedResult = recordsOf (Columns Demo2.uncappedResult) values /\
    Truncated Demo2.uncappedResult = false.
Proof.
  apply (call_without_cap Demo.tables Demo.unrepresentable Demo2.uncapped
           Demo.selectTwo Demo.threeRows Demo2.uncappedResult).
  - cbn. lia.
  - right. cbn. lia.
  - reflexivity.
  - vm_compute. reflexivity.
Defined.

Lemma returned_cells_settled_witness :
  settled (Str "x") /\ normalizeValue (Str "x") = Str "x".
Proof.
  apply (returned_cells_settled Demo.tables Demo.unrepresentable Demo.handler
           Demo.selectTwo (Demo.result Demo.selectTwo) Demo.firstRecord "b").
  - vm_compute. reflexivity.
  - apply list_elem_of_lookup. exists 0%nat. vm_compute. reflexivity.
  - vm_compute. reflexivity.
Defined.

(** * The command *)

(** ** Configuration *)

Section ConfigFacts.

Variable LowerCase : Z -> Z.

(** On an ASCII text [strings.ToLower] lowers the letters A to Z byte by
    byte, whatever the case tables hold. *)
Lemma lowerBytes_fixed s : hasUpper s = false -> lowerBytes s = s.
Proof.
  induction s as [|c s IH]; cbn [hasUpper lowerBytes]; [reflexivity|].
  intros H. apply orb_false_iff in H as [H1 H2]. now rewrite H1, IH.
Qed.

Lemma stringsToLower_ascii s :
  isASCII s = true -> stringsToLower LowerCase s = lowerBytes s.
Proof.
  intros H. unfold stringsToLower. rewrite H.
  destruct (hasUpper s) eqn:E; cbn [negb]; [reflexivity|].
  symmetry. now apply lowerBytes_fixed.
Qed.

(** X9.  A configuration that [parseConfig] accepts has the mode [stdio]
    or [http], so the [switch] of [main] never reaches its [unknown mode]
    branch, and a database URL that is not blank: the flag without its
    surrounding white space. *)
Theorem parseConfig_accepts f cfg :
  main.parseConfig LowerCase f = inr cfg ->
  (main.Mode cfg = "stdio" \/ main.Mode cfg = "http") /\
  main.dispatch cfg <> main.UnknownMode /\
  main.DatabaseURL cfg = TrimSpace (main.flagDatabaseURL f) /\
  main.DatabaseURL cfg <> "" /\
  (exists a b, main.flagDatabaseURL f = a +:+ main.DatabaseURL cfg +:+ b).
Proof.
  unfold main.parseConfig.
  set (mode := stringsToLower LowerCase (TrimSpace (main.flagMode f))).
  destruct (String.eqb mode main.modeStdio || String.eqb mode main.modeHTTP) eqn:Em;
    [|discriminate].
  destruct (String.eqb (TrimSpace (main.flagDatabaseURL f)) "") eqn:Ed; [discriminate|].
  intros H. injection H as <-. cbn [main.Mode main.DatabaseURL].
  apply String.eqb_neq in Ed.
  assert (Hmode : mode = "stdio" \/ mode = "http").
  { apply orb_true_iff in Em as [E|E]; apply String.eqb_eq in E; auto. }
  split; [exact Hmode|]. split.
  - unfold main.dispatch. cbn [main.Mode].
    destruct Hmode as [-> | ->]; discriminate.
  - split; [reflexivity|]. split; [exact Ed|]. apply TrimSpace_slice.
Qed.

(** X10.  The server [main] builds from an accepted configuration and a
    pool holds that pool, is read-only exactly when [--readonly] was
    given, and caps the rows at [--max-rows], or at 200 when that is zero
    or negative: no value of the flag turns the cap off. *)
Theorem configured_server f cfg :
  main.parseConfig LowerCase f = inr cfg ->
  forall p, exists h,
    NewServer (main.serverOptions cfg p) = inr h /\
    pool h = p /\
    readOnly h = main.flagReadonly f /\
    requestTimeout h = main.flagTimeout f /\
    maxRows h = (if main.flagMaxRows f <=? 0 then 200 else main.flagMaxRows f) /\
    1 <= maxRows h /\
    (forall o L, effectiveLimit (maxRows h) o = inr L -> 1 <= L).
Proof.
  unfold main.parseConfig.
  destruct (_ || _); [|discriminate].
  destruct (String.eqb _ ""); [discriminate|].
  intros H p. injection H as <-.
  unfold NewServer, main.serverOptions.
  cbn [ServerOptions.Pool ServerOptions.MaxRows ServerOptions.ReadOnly
       ServerOptions.RequestTimeout main.MaxRows main.ReadOnly main.RequestTimeout].
  eexists. split; [reflexivity|]. cbn [pool readOnly requestTimeout maxRows].
  unfold defaultMaxRows.
  assert (Hm : 1 <= (if main.flagMaxRows f <=? 0 then 200 else main.flagMaxRows f)).
  { destruct (main.flagMaxRows f <=? 0) eqn:E; [lia | apply Z.leb_gt in E; lia]. }
  repeat split; try assumption.
  intros o L HL. exact (effectiveLimit_positive _ _ _ Hm HL).
Qed.

(** X11.  With no flag on the command line, the configuration is accepted
    exactly when the environment variable [DATABASE_URL] holds something
    other than white space; the server then speaks over stdio, is not
    read-only, and caps the rows at 200. *)
Theorem default_configuration (env : gmap string string) :
  (TrimSpace (main.defaultDatabaseURL env) = "" ->
   main.parseConfig LowerCase (main.defaultFlags env) = inl main.DatabaseURLRequired) /\
  (TrimSpace (main.defaultDatabaseURL env) <> "" ->
   exists cfg,
     main.parseConfig LowerCase (main.defaultFlags env) = inr cfg /\
     main.dispatch cfg = main.RunStdio /\
     main.DatabaseURL cfg = TrimSpace (main.defaultDatabaseURL env) /\
     forall p, exists h,
       NewServer (main.serverOptions cfg p) = inr h /\
       readOnly h = false /\ maxRows h = 200) /\
  (env !! "DATABASE_URL" = None ->
   main.parseConfig LowerCase (main.defaultFlags env) = inl main.DatabaseURLRequired).
Proof.
  assert (Hmode : stringsToLower LowerCase
                    (TrimSpace (main.flagMode (main.defaultFlags env))) = "stdio")
    by reflexivity.
  unfold main.parseConfig. rewrite Hmode.
  change (String.eqb "stdio" main.modeStdio || String.eqb "stdio" main.modeHTTP)
    with true. cbv iota.
  cbn [main.defaultFlags main.flagDatabaseURL main.flagListen main.flagReadonly
       main.flagMaxRows main.flagTimeout main.flagHTTPStateless main.flagHTTPJSON].
  split; [|split].
  - intros ->. reflexivity.
  - intros Hne. apply String.eqb_neq in Hne. rewrite Hne.
    eexists. split; [reflexivity|]. split; [reflexivity|]. split; [reflexivity|].
    intros p. eexists. split; [reflexivity|]. split; reflexivity.
  - intros Hnone. unfold main.defaultDatabaseURL. rewrite Hnone. reflexivity.
Qed.

End ConfigFacts.
(** ** The pool's runtime parameters *)

(** X12.  [configurePool] names the application [postgres-mcp-go] only when
    the connection string names none: a name given there is kept, every
    other parameter is left as it is, and afterwards a name is always
    set. *)
Theorem runtimeParams_application_name (params : option (gmap string string)) :
  let given := default ∅ params in
  main.runtimeParams params !! "application_name" =
    Some (default "postgres-mcp-go" (given !! "application_name")) /\
  (forall k, k <> "application_name" -> main.runtimeParams params !! k = given !! k) /\
  main.runtimeParams (Some (main.runtimeParams params)) = main.runtimeParams params.
Proof.
  intros given. unfold main.runtimeParams.
  replace (match params with Some m => m | None => ∅ end) with given
    by (now destruct params).
  destruct (given !! "application_name") as [name|] eqn:E; cbn [default].
  - rewrite E. split; [reflexivity|]. split; reflexivity.
  - rewrite lookup_insert_eq. split; [reflexivity|]. split; [|reflexivity].
    intros k Hk. now rewrite lookup_insert_ne.
Qed.

(** ** The logging middleware *)

Lemma wrap64_range z : minInt64 <= wrap64 z <= maxInt64.
Proof.
  unfold wrap64, minInt64, maxInt64.
  pose proof (Z.mod_pos_bound (z + 2 ^ 63) (2 ^ 64) ltac:(lia)). lia.
Qed.

Lemma wrap64_add a n : wrap64 (wrap64 a + n) = wrap64 (a + n).
Proof.
  unfold wrap64.
  replace ((a + 2 ^ 63) mod 2 ^ 64 - 2 ^ 63 + n + 2 ^ 63)
    with ((a + 2 ^ 63) mod 2 ^ 64 + n) by lia.
  rewrite Zplus_mod_idemp_l. f_equal. f_equal. lia.
Qed.

Section MiddlewareFacts.

Variable W : Type.
Variable underlyingWriteHeader : W -> Z -> W.
Variable underlyingWrite : W -> string -> W * (Z * option error).

Local Abbreviation serveDirect := (main.serveDirect W underlyingWriteHeader underlyingWrite).
Local Abbreviation serveWrapped := (main.serveWrapped W underlyingWriteHeader underlyingWrite).
Local Abbreviation codes := (main.codes W underlyingWriteHeader underlyingWrite).
Local Abbreviation written := (main.written W underlyingWriteHeader underlyingWrite).

Lemma serveWrapped_spec next : forall sw u,
  serveWrapped next (sw, u) =
  ({| main.status := default (main.status sw) (last (codes next u));
      main.bytes :=
        match written next u with
        | [] => main.bytes sw
        | ns => wrap64 (main.bytes sw + foldr Z.add 0 ns)
        end |},
   serveDirect next u).
Proof.
  induction next as [|code k IH|p k IH]; intros sw u;
    cbn [main.serveWrapped main.serveDirect main.codes main.written].
  - destruct sw; reflexivity.
  - unfold main.WriteHeader. cbn [fst snd]. rewrite IH. cbn [main.status main.bytes].
    f_equal. f_equal.
    rewrite (last_cons code).
    now destruct (last (codes k (underlyingWriteHeader u code))).
  - unfold main.Write. cbn [fst snd].
    destruct (underlyingWrite u p) as [u' [n err]].
    rewrite IH. cbn [main.status main.bytes foldr]. f_equal. f_equal.
    destruct (written (k n err) u') as [|m ms].
    + change (foldr Z.add 0 []) with 0. f_equal. lia.
    + rewrite wrap64_add. f_equal. simpl. lia.
Qed.


End MiddlewareFacts.
Lemma parseConfig_accepts_witness :
  (main.Mode Demo3.config = "stdio" \/ main.Mode Demo3.config = "http") /\
  main.dispatch Demo3.config <> main.UnknownMode /\
  main.DatabaseURL Demo3.config = TrimSpace (main.flagDatabaseURL Demo3.flags) /\
  main.DatabaseURL Demo3.config <> "" /\
  (exists a b,
     main.flagDatabaseURL Demo3.flags = a +:+ main.DatabaseURL Demo3.config +:+ b).
Proof.
  apply (parseConfig_accepts Demo3.lowerCase Demo3.flags Demo3.config).
  vm_compute. reflexivity.
Defined.

Lemma configured_server_witness :
  exists h,
    NewServer (main.serverOptions Demo3.config Demo.database) = inr h /\
    pool h = Demo.database /\
    readOnly h = main.flagReadonly Demo3.flags /\
    requestTimeout h = main.flagTimeout Demo3.flags /\
    maxRows h = (if main.flagMaxRows Demo3.flags <=? 0 then 200
                 else main.flagMaxRows Demo3.flags) /\
    1 <= maxRows h /\
    (forall o L, effectiveLimit (maxRows h) o = inr L -> 1 <= L).
Proof.
  apply (configured_server Demo3.lowerCase Demo3.flags Demo3.config).
  vm_compute. reflexivity.
Defined.

(** * Trimming twice *)

(** ** Decoding does not look past the rune *)

Lemma Decode_size_le s : (snd (DecodeRuneInString s) <= String.length s)%nat.
Proof.
  unfold DecodeRuneInString. destruct s as [|c0 r]; [cbn; lia|].
  destruct (accept (byteval c0)) as [lo hi].
  repeat match goal with
         | |- context [if ?b then _ else _] => destruct b
         | |- context [match ?s with EmptyString => _ | String _ _ => _ end] =>
           destruct s
         end; cbn; lia.
Qed.

(** Decoding the first rune of a text gives the same result on any shorter
    text that still holds the bytes of that rune. *)
Lemma Decode_stable c0 r t :
  (Nat.pred (snd (DecodeRuneInString (String c0 (r +:+ t)))) <= String.length r)%nat ->
  DecodeRuneInString (String c0 r) = DecodeRuneInString (String c0 (r +:+ t)).
Proof.
  unfold DecodeRuneInString.
  destruct (accept (byteval c0)) as [lo hi].
  destruct r as [|c1 [|c2 [|c3 r]]]; rewrite ?app_String, ?app_empty;
    destruct t as [|d1 [|d2 [|d3 t]]];
    repeat match goal with
           | |- context [if ?b then _ else _] => destruct b
           end; cbn; intros H; try reflexivity; try lia.
Qed.
(** ** The runes of a slice taken at rune boundaries *)

Lemma rangeFrom_drop s : forall k, rangeFrom k s = range (drop_bytes k s).
Proof.
  induction s as [|c r IH]; intros k.
  - now destruct k.
  - destruct k as [|k]; [reflexivity|]. cbn [rangeFrom drop_bytes]. apply IH.
Qed.

Lemma range_cons c r :
  range (String c r) =
  (fst (DecodeRuneInString (String c r)),
   take_bytes (snd (DecodeRuneInString (String c r))) (String c r))
  :: range (drop_bytes (snd (DecodeRuneInString (String c r))) (String c r)).
Proof.
  unfold range at 1. cbn [rangeFrom].
  pose proof (Decode_size c r) as Hn.
  destruct (DecodeRuneInString (String c r)) as [rn n]. cbn [fst snd] in *.
  destruct n as [|n]; [congruence|].
  cbn [Nat.pred drop_bytes]. now rewrite rangeFrom_drop.
Qed.

Lemma length_take_bytes n s :
  (n <= String.length s)%nat -> String.length (take_bytes n s) = n.
Proof.
  revert s; induction n as [|n IH]; intros [|c s] H; cbn in *; try lia.
  rewrite IH; lia.
Qed.

Lemma app_cancel (a b c : string) : a +:+ b = a +:+ c -> b = c.
Proof.
  induction a as [|x a IH]; rewrite ?app_String, ?app_empty; [auto|].
  intros H. injection H as H. auto.
Qed.

(** What a list of runes made of the runes of its own bytes has in front. *)
Lemma chunks_head x l :
  range (snd x +:+ joinBytes l) = x :: l ->
  exists c r,
    snd x +:+ joinBytes l = String c r /\
    x = (fst (DecodeRuneInString (String c r)), snd x) /\
    String.length (snd x) = snd (DecodeRuneInString (String c r)) /\
    l = range (joinBytes l).
Proof.
  intros H. destruct (snd x +:+ joinBytes l) as [|c r] eqn:Es; [discriminate|].
  exists c, r. split; [reflexivity|].
  rewrite range_cons in H. injection H as Hx Hl.
  pose proof (Decode_size_le (String c r)) as Hle.
  set (n := snd (DecodeRuneInString (String c r))) in *.
  assert (Hsx : snd x = take_bytes n (String c r)) by (now rewrite <- Hx).
  assert (Hdrop : joinBytes l = drop_bytes n (String c r)).
  { apply (app_cancel (snd x)). rewrite Es, Hsx. symmetry. apply take_drop_bytes. }
  repeat split.
  - rewrite Hsx. symmetry. exact Hx.
  - rewrite Hsx. now apply length_take_bytes.
  - rewrite Hdrop. symmetry. exact Hl.
Qed.

Lemma chunks_suffix a : forall l,
  range (joinBytes (a ++ l)) = (a ++ l)%list -> range (joinBytes l) = l.
Proof.
  induction a as [|x a IH]; intros l H; [exact H|].
  apply IH. cbn [app joinBytes] in H.
  apply chunks_head in H as (c & r & _ & _ & _ & Hl). now symmetry.
Qed.

Lemma chunks_prefix l : forall b,
  range (joinBytes (l ++ b)) = (l ++ b)%list -> range (joinBytes l) = l.
Proof.
  induction l as [|x l IH]; intros b H; [reflexivity|].
  cbn [app joinBytes] in *.
  pose proof H as H0.
  apply chunks_head in H as (c & r & Es & Hx & Hlen & Hl).
  assert (IHl : range (joinBytes l) = l) by (apply (IH b); now symmetry).
  rewrite joinBytes_app in Es.
  destruct (snd x) as [|c' sx] eqn:Esx.
  { pose proof (Decode_size c r) as Hn. rewrite ?Esx in Hlen.
    cbn [String.length] in Hlen. rewrite <- Hlen in Hn. congruence. }
  rewrite ?Esx in Hlen, Hx.
  rewrite app_String in Es. injection Es as -> Er.
  assert (Hd : DecodeRuneInString (String c (sx +:+ joinBytes l)) =
               DecodeRuneInString (String c r)).
  { rewrite <- Er, <- app_assoc_string. apply Decode_stable.
    rewrite app_assoc_string, Er, <- Hlen, strlen_app. cbn. lia. }
  rewrite app_String, range_cons, Hd, <- Hlen.
  cbn [String.length].
  change (String c (sx +:+ joinBytes l)) with (String c sx +:+ joinBytes l).
  replace (S (String.length sx)) with (String.length (String c sx)) by reflexivity.
  rewrite take_bytes_app, drop_bytes_app, IHl.
  f_equal. symmetry. exact Hx.
Qed.
(** ** [strings.TrimSpace] on a trimmed text *)

Lemma dropWhile_idem {A} (f : A -> bool) l :
  dropWhile f (dropWhile f l) = dropWhile f l.
Proof.
  induction l as [|x l IH]; cbn [dropWhile]; [reflexivity|].
  destruct (f x) eqn:E; [exact IH|]. cbn [dropWhile]. now rewrite E.
Qed.

Lemma dropWhile_app_stop {A} (f : A -> bool) x l b :
  f x = false -> dropWhile f ((x :: l) ++ b) = ((x :: l) ++ b)%list.
Proof. intros E. cbn [app dropWhile]. now rewrite E. Qed.

(** The runes of a trimmed text are the runes of the text without the white
    space at both ends. *)
Lemma range_TrimSpace s :
  range (TrimSpace s) =
  rev (dropWhile isSpaceRune (rev (dropWhile isSpaceRune (range s)))).
Proof.
  unfold TrimSpace.
  set (d := dropWhile isSpaceRune (range s)).
  destruct (dropWhile_suffix isSpaceRune (range s)) as [a Ha]. fold d in Ha.
  destruct (dropWhile_suffix isSpaceRune (rev d)) as [b Hb].
  set (e := dropWhile isSpaceRune (rev d)) in *.
  assert (Hd : d = (rev e ++ rev b)%list).
  { rewrite <- rev_app_distr, <- Hb. symmetry. apply rev_involutive. }
  apply (chunks_prefix (rev e) (rev b)). rewrite <- Hd.
  apply (chunks_suffix a). rewrite <- Ha.
  now rewrite range_join.
Qed.

(** A trimmed text neither starts nor ends with a white-space rune. *)
Lemma TrimSpace_ends s :
  dropWhile isSpaceRune (range (TrimSpace s)) = range (TrimSpace s) /\
  dropWhile isSpaceRune (rev (range (TrimSpace s))) = rev (range (TrimSpace s)).
Proof.
  rewrite range_TrimSpace.
  set (d := dropWhile isSpaceRune (range s)).
  set (e := dropWhile isSpaceRune (rev d)).
  split.
  - destruct (dropWhile_suffix isSpaceRune (rev d)) as [b Hb]. fold e in Hb.
    assert (Hd : d = (rev e ++ rev b)%list).
    { rewrite <- rev_app_distr, <- Hb. symmetry. apply rev_involutive. }
    destruct (rev e) as [|x l] eqn:Ee; [reflexivity|].
    assert (Hx : isSpaceRune x = false).
    { pose proof (dropWhile_idem isSpaceRune (range s)) as Hi. fold d in Hi.
      rewrite Hd in Hi. cbn [app dropWhile] in Hi.
      destruct (isSpaceRune x) eqn:Ex; [|reflexivity].
      exfalso. apply (f_equal (@List.length _)) in Hi.
      destruct (dropWhile_suffix isSpaceRune (l ++ rev b)) as [a' Ha'].
      rewrite Ha' in Hi at 2. cbn [List.length] in Hi.
      rewrite List.length_app in Hi. lia. }
    cbn [dropWhile]. now rewrite Hx.
  - rewrite rev_involutive. apply dropWhile_idem.
Qed.

(** Trimming a trimmed text changes nothing. *)
Lemma TrimSpace_idempotent s : TrimSpace (TrimSpace s) = TrimSpace s.
Proof.
  destruct (TrimSpace_ends s) as [H1 H2].
  unfold TrimSpace at 1. rewrite H1, H2, rev_involutive. apply range_join.
Qed.
(** ** The checks see the text as [call] trims it *)

Section TrimmedFacts.

Variable T : Tables.

(** X14.  The checks of the guard give the same answer on a text and on
    the text without its surrounding white space, so trimming the
    statement in [call] before the checks trim it again changes no
    verdict: the guard's answer can be read off the untrimmed text. *)
Theorem guard_on_raw_text ro sql :
  isSingleStatement (TrimSpace sql) = isSingleStatement sql /\
  firstKeyword T (TrimSpace sql) = firstKeyword T sql /\
  isReadOnlyStatement T (TrimSpace sql) = isReadOnlyStatement T sql /\
  guard T ro (TrimSpace sql) =
    (if String.eqb (TrimSpace sql) "" then Some EmptyStatement
     else if negb (isSingleStatement sql) then Some MultiStatementRejected
     else if ro && negb (isReadOnlyStatement T sql)
     then Some MutatingStatementRejected
     else None).
Proof.
  assert (H1 : isSingleStatement (TrimSpace sql) = isSingleStatement sql)
    by (unfold isSingleStatement; now rewrite TrimSpace_idempotent).
  assert (H2 : firstKeyword T (TrimSpace sql) = firstKeyword T sql)
    by (unfold firstKeyword; now rewrite TrimSpace_idempotent).
  assert (H3 : isReadOnlyStatement T (TrimSpace sql) = isReadOnlyStatement T sql)
    by (unfold isReadOnlyStatement; now rewrite H2).
  repeat split; try assumption.
  unfold guard. now rewrite H1, H3.
Qed.

(** The comment loop leaves a trimmed text. *)
Lemma skipLeading_trimmed : forall n s s',
  (exists y, s = TrimSpace y) ->
  skipLeading n s = Some s' -> exists y, s' = TrimSpace y.
Proof.
  induction n as [|n IH]; intros s s' Hs; cbn [skipLeading];
    destruct (HasPrefix s "--");
    try (destruct (IndexByte s "010" <? 0); [discriminate|]);
    try discriminate;
    try (apply IH; eauto);
    destruct (HasPrefix s "/*");
    try (destruct (Index s "*/" <? 0); [discriminate|]);
    try discriminate;
    try (apply IH; eauto);
    intros [= <-]; exact Hs.
Qed.

Lemma scanToken_scanLetters rs : forall b,
  (len b =? 0) = false -> scanToken T rs b = scanLetters T rs b.
Proof.
  induction rs as [|[r bytes] rs IH]; intros b Hb; cbn [scanToken scanLetters];
    [reflexivity|].
  destruct (IsLetter T r || (r =? 95)).
  - apply IH. apply len_app_nonzero, EncodeRune_nonempty.
  - rewrite Hb. reflexivity.
Qed.

(** X15.  The branch of the token loop of [firstKeyword] that skips white
    space before the first letter is never taken: the loop always starts
    on a text that does not begin with white space, and [firstKeyword]
    returns the same keyword with the branch taken out. *)
Theorem firstKeyword_space_branch_dead sql :
  firstKeyword T sql = firstKeywordLetters T sql.
Proof.
  unfold firstKeyword, firstKeywordLetters.
  destruct (skipLeading _ (TrimSpace sql)) as [s|] eqn:E; [|reflexivity].
  destruct (String.eqb s ""); [reflexivity|].
  apply skipLeading_trimmed in E as [y ->]; [|eauto].
  destruct (TrimSpace_ends y) as [Hhead _].
  destruct (range (TrimSpace y)) as [|[r bytes] rs]; [reflexivity|].
  cbn [dropWhile] in Hhead. unfold isSpaceRune at 1 in Hhead. cbn [fst] in Hhead.
  destruct (IsSpace r) eqn:Er.
  { exfalso. apply (f_equal (@List.length _)) in Hhead.
    destruct (dropWhile_suffix isSpaceRune rs) as [a Ha].
    rewrite Ha in Hhead at 2. cbn [List.length] in Hhead.
    rewrite List.length_app in Hhead. lia. }
  cbn [scanToken scanLetters]. rewrite Er.
  destruct (IsLetter T r || (r =? 95)); [|now rewrite andb_false_r].
  apply scanToken_scanLetters. apply (len_app_nonzero "" _), EncodeRune_nonempty.
Qed.

End TrimmedFacts.

(** * Normalizing arguments twice *)

Lemma anySize_lookup (m : gmap string any) k v :
  m !! k = Some v -> (anySize v < anySize (MapAny m))%nat.
Proof.
  cbn [anySize]. revert k v.
  induction m as [|k' v' m Hk Hfirst IH] using map_first_key_ind; intros k v H.
  - rewrite lookup_empty in H. discriminate.
  - rewrite map_fold_insert_first_key by assumption.
    apply lookup_insert_Some in H as [[-> ->]|[Hne H]]; [lia|].
    specialize (IH k v H). lia.
Qed.

Lemma anySize_elem (l : list any) v :
  v ∈ l -> (anySize v < anySize (SliceAny l))%nat.
Proof.
  cbn [anySize]. induction l as [|x l IH]; intros H.
  - now apply elem_of_nil in H.
  - cbn [foldr]. apply elem_of_cons in H as [->|H]; [lia|].
    specialize (IH H). lia.
Qed.

Section IdempotenceFacts.

Variable unrepresentable : math.float64 -> Z.

Lemma normalizeArgument_idempotent_below n : forall arg,
  (anySize arg < n)%nat ->
  normalizeArgument unrepresentable (normalizeArgument unrepresentable arg) =
  normalizeArgument unrepresentable arg.
Proof.
  induction n as [|n IH]; intros arg Hn; [lia|].
  destruct arg as [| | | |v|m|l| | | | | |]; try reflexivity.
  - cbn [normalizeArgument].
    destruct (math.eq (math.Trunc v) v) eqn:E; cbn [normalizeArgument];
      [reflexivity | now rewrite E].
  - cbn [normalizeArgument]. f_equal. rewrite <- map_fmap_compose.
    apply map_fmap_ext. intros k v Hk. cbn. apply IH.
    pose proof (anySize_lookup m k v Hk). lia.
  - cbn [normalizeArgument]. f_equal. rewrite <- list_fmap_compose.
    apply list_fmap_ext. intros i v Hi. cbn. apply IH.
    pose proof (anySize_elem l v ltac:(eapply list_elem_of_lookup_2; eauto)). lia.
Qed.

(** X16.  Normalizing an argument that has been normalized changes
    nothing, at any depth of maps and sequences: one pass narrows every
    float it will ever narrow. *)
Theorem normalizeArgument_idempotent arg :
  normalizeArgument unrepresentable (normalizeArgument unrepresentable arg) =
  normalizeArgument unrepresentable arg.
Proof. apply (normalizeArgument_idempotent_below (S (anySize arg))). lia. Qed.

End IdempotenceFacts.

